(** * The map widget of fyne-x: tile viewport, zoom/pan state and [draw]

    A shallow embedding of [src/widget/map.go].  Go's [int] is taken at its
    64-bit width (amd64, arm64): every arithmetic operation of the source is
    written with its two's-complement wrap-around. *)

From Stdlib Require Import ZArith List Bool Lia.
From Stdlib Require Import SpecFloat.
Import ListNotations.

Local Open Scope Z_scope.

(** ** Go's [int] *)

Module GoInt.

Definition minInt : Z := - 2 ^ 63.
Definition maxInt : Z := 2 ^ 63 - 1.

(** The values an [int] variable can hold. *)
Definition is_int (n : Z) : Prop := minInt <= n <= maxInt.

(** Two's-complement reduction of a mathematical result to 64 bits. *)
Definition wrap (n : Z) : Z := (n + 2 ^ 63) mod 2 ^ 64 - 2 ^ 63.

Definition add (a b : Z) : Z := wrap (a + b).
Definition sub (a b : Z) : Z := wrap (a - b).
Definition mul (a b : Z) : Z := wrap (a * b).

(** [a / b] truncates toward zero; every divisor of the source is the
    constant 2. *)
Definition quo (a b : Z) : Z := wrap (Z.quot a b).

(** [a << n] for a shift count [0 <= n]; the bits shifted past bit 63 are
    lost.  A negative count panics: the caller tests for it. *)
Definition shl (a n : Z) : Z := wrap (Z.shiftl a n).

(** [uint(n)]: the same 64 bits read as an unsigned number. *)
Definition to_uint (n : Z) : Z := n mod 2 ^ 64.

End GoInt.

Import GoInt.

(** ** Go's [float32] and [float64]

    IEEE 754 binary32 and binary64 with round-to-nearest-even, through the
    Standard Library's executable specification of floating-point
    numbers. *)

Module GoFloat.

Definition float32 : Type := spec_float.
Definition float64 : Type := spec_float.

(** [float32(n)] and [float64(n)] of an [int]. *)
Definition float32_of_int (n : Z) : float32 := binary_normalize 24 128 n 0 false.
Definition float64_of_int (n : Z) : float64 := binary_normalize 53 1024 n 0 false.

(** The untyped constants [2] and [0.5] in a [float32] expression. *)
Definition two32 : float32 := binary_normalize 24 128 2 0 false.
Definition half32 : float32 := binary_normalize 24 128 1 (-1) false.

Definition div32 (a b : float32) : float32 := SFdiv 24 128 a b.
Definition sub32 (a b : float32) : float32 := SFsub 24 128 a b.
Definition div64 (a b : float64) : float64 := SFdiv 53 1024 a b.

(** The integer part, toward zero, of a finite float; [None] for an
    infinity or a NaN. *)
Definition truncate (f : spec_float) : option Z :=
  match f with
  | S754_zero _ => Some 0
  | S754_finite s m e => Some (cond_Zopp s (Z.shiftl (Zpos m) e))
  | S754_infinity _ | S754_nan => None
  end.

(** [int(f)]: the fraction is discarded.  Where the value does not fit an
    [int] the language leaves the result to the implementation; amd64's
    conversion instruction then yields the smallest [int]. *)
Definition to_int (f : spec_float) : Z :=
  match truncate f with
  | Some n => if (minInt <=? n) && (n <=? maxInt) then n else minInt
  | None => minInt
  end.

(** [math.Ceil]: the least integer value not below [f]; zeros, infinities
    and NaN are returned as they are, and a value in (-1, 0) gives -0. *)
Definition Ceil (f : float64) : float64 :=
  match f with
  | S754_finite s m e =>
      let c := - Z.shiftl (- cond_Zopp s (Zpos m)) e in
      if c =? 0 then S754_zero s else binary_normalize 53 1024 c 0 false
  | _ => f
  end.

End GoFloat.

Import GoFloat.

(** ** Package [image]: points, rectangles, colours, buffers *)

Module image.

Record Point : Type := Pt { X : Z; Y : Z }.

Record Rectangle : Type := mkRectangle { Min : Point; Max : Point }.

(** [image.Rect]: the corners are put in order. *)
Definition Rect (x0 y0 x1 y1 : Z) : Rectangle :=
  let (x0, x1) := if x1 <? x0 then (x1, x0) else (x0, x1) in
  let (y0, y1) := if y1 <? y0 then (y1, y0) else (y0, y1) in
  {| Min := Pt x0 y0; Max := Pt x1 y1 |}.

Definition ZR : Rectangle := {| Min := Pt 0 0; Max := Pt 0 0 |}.

Definition PtAdd (p q : Point) : Point := Pt (add (X p) (X q)) (add (Y p) (Y q)).
Definition PtSub (p q : Point) : Point := Pt (sub (X p) (X q)) (sub (Y p) (Y q)).

(** [p.In(r)] *)
Definition PtIn (p : Point) (r : Rectangle) : bool :=
  (X (Min r) <=? X p) && (X p <? X (Max r)) &&
  (Y (Min r) <=? Y p) && (Y p <? Y (Max r)).

Definition Dx (r : Rectangle) : Z := sub (X (Max r)) (X (Min r)).
Definition Dy (r : Rectangle) : Z := sub (Y (Max r)) (Y (Min r)).

(** [r.Add(p)] *)
Definition Add (r : Rectangle) (p : Point) : Rectangle :=
  {| Min := PtAdd (Min r) p; Max := PtAdd (Max r) p |}.

(** [r.Empty()] *)
Definition Empty (r : Rectangle) : bool :=
  (X (Max r) <=? X (Min r)) || (Y (Max r) <=? Y (Min r)).

(** [r.Intersect(s)] *)
Definition Intersect (r s : Rectangle) : Rectangle :=
  let r' :=
    {| Min := Pt (Z.max (X (Min r)) (X (Min s))) (Z.max (Y (Min r)) (Y (Min s)));
       Max := Pt (Z.min (X (Max r)) (X (Max s))) (Z.min (Y (Max r)) (Y (Max s))) |} in
  if Empty r' then ZR else r'.

(** What [Color.RGBA()] returns: alpha-premultiplied 16-bit channels. *)
Inductive RGBA64 : Type := rgba64 (r g b a : Z).

(** [color.NRGBA]: non-premultiplied 8-bit channels. *)
Inductive NRGBAColor : Type := nrgba (r g b a : Z).

(** [image.Image] as far as [draw] reads it: its bounds and the colour at
    a point, given as [At(x, y).RGBA()]. *)
Record Image : Type := mkImage {
  Bounds : Rectangle;
  RGBA64At : Z -> Z -> RGBA64
}.

(** [*image.NRGBA]: the pixel grid by coordinates (the layout of [Pix] and
    [Stride] is left out) and its bounds. *)
Record NRGBA : Type := mkNRGBA {
  PixAt : Z -> Z -> NRGBAColor;
  NRect : Rectangle
}.

(** [color.NRGBA.RGBA]: premultiply and widen to 16 bits. *)
Definition NRGBA_RGBA (c : NRGBAColor) : RGBA64 :=
  let 'nrgba r g b a := c in
  rgba64 (Z.quot (r * 257 * a) 255) (Z.quot (g * 257 * a) 255)
         (Z.quot (b * 257 * a) 255) (a * 257).

(** [NRGBA.RGBA64At] on the pointer: the zero colour outside the bounds. *)
Definition NRGBA_RGBA64At (p : NRGBA) (px py : Z) : RGBA64 :=
  if PtIn (Pt px py) (NRect p) then NRGBA_RGBA (PixAt p px py)
  else NRGBA_RGBA (nrgba 0 0 0 0).

(** The colour [NRGBA.SetRGBA64] stores: un-premultiply unless alpha is
    0 or 0xffff, then keep the high byte of each channel. *)
Definition NRGBA_of_RGBA64 (c : RGBA64) : NRGBAColor :=
  let 'rgba64 r g b a := c in
  let un (v : Z) :=
    if (negb (a =? 0)) && (negb (a =? 65535)) then Z.quot (v * 65535) a else v in
  nrgba (Z.shiftr (un r) 8 mod 256) (Z.shiftr (un g) 8 mod 256)
        (Z.shiftr (un b) 8 mod 256) (Z.shiftr a 8 mod 256).

(** [mul3NonNeg] of package [image]: the product, or -1 on a negative
    factor or an overflow. *)
Definition mul3NonNeg (a b c : Z) : Z :=
  if (a <? 0) || (b <? 0) || (c <? 0) then -1
  else if 2 ^ 64 <=? a * b then -1
  else if 2 ^ 64 <=? a * b * c then -1
  else if 2 ^ 63 <=? a * b * c then -1
  else a * b * c.

(** [image.NewNRGBA(r)]: a [blank] buffer of transparent black, or [None]
    where the library panics on huge or negative dimensions.  Exhaustion of
    the machine's memory is not modelled. *)
Definition blank (r : Rectangle) : NRGBA :=
  {| PixAt := fun _ _ => nrgba 0 0 0 0; NRect := r |}.

Definition NewNRGBA (r : Rectangle) : option NRGBA :=
  if mul3NonNeg 4 (Dx r) (Dy r) <? 0 then None else Some (blank r).

End image.

Import image.

(** ** Package [golang.org/x/image/draw]: [Copy] with the [Over] operator *)

Module draw.

(** Porter-Duff "source over destination" on premultiplied colours, as
    [DrawMask] computes it without a mask ([m = 0xffff]); the sums are
    [uint16]. *)
Definition over (d s : RGBA64) : RGBA64 :=
  let 'rgba64 dr dg db da := d in
  let 'rgba64 sr sg sb sa := s in
  let a := 65535 - sa in
  rgba64 ((dr * a / 65535 + sr) mod 65536) ((dg * a / 65535 + sg) mod 65536)
         ((db * a / 65535 + sb) mod 65536) ((da * a / 65535 + sa) mod 65536).

(** [clip]: the rectangle really drawn, inside the destination and inside
    the source moved to its place, and the source point of its corner. *)
Definition clip (dst : NRGBA) (r : Rectangle) (src : Image) (sp : Point)
  : Rectangle * Point :=
  let orig := Min r in
  let r1 := Intersect r (NRect dst) in
  let r2 := Intersect r1 (Add (Bounds src) (PtSub orig sp)) in
  let dx := sub (X (Min r2)) (X orig) in
  let dy := sub (Y (Min r2)) (Y orig) in
  (r2, Pt (add (X sp) dx) (add (Y sp) dy)).

(** [DrawMask(dst, r, src, sp, nil, _, Over)] on an [*image.NRGBA]
    destination: every pixel of the clipped rectangle becomes the source
    pixel composed over it. *)
Definition DrawMask (dst : NRGBA) (r : Rectangle) (src : Image) (sp : Point) : NRGBA :=
  let (r', sp') := clip dst r src sp in
  if Empty r' then dst
  else
    {| PixAt := fun px py =>
         if PtIn (Pt px py) r' then
           let sx := add (X sp') (sub px (X (Min r'))) in
           let sy := add (Y sp') (sub py (Y (Min r'))) in
           NRGBA_of_RGBA64 (over (NRGBA_RGBA64At dst px py) (RGBA64At src sx sy))
         else PixAt dst px py;
       NRect := NRect dst |}.

(** [Copy(dst, dp, src, sr, Over, nil)] *)
Definition Copy (dst : NRGBA) (dp : Point) (src : Image) (sr : Rectangle) : NRGBA :=
  let dr := Add sr (PtSub dp (Min sr)) in
  DrawMask dst dr src (Min sr).

End draw.

(** ** The widget's state *)

(** A buffer of [*image.NRGBA] type is a heap object; [pixels] holds its
    address, or [None] for the nil pointer the zero value starts with. *)
Definition ptr := nat.

(** [type Map struct]: the fields [draw] and the buttons read and write.
    [widget.BaseWidget] and the HTTP client [cl] carry no state of the
    viewport; the client is threaded through the tile source below. *)
Record Map : Type := mkMap {
  pixels : option ptr;
  w : Z;
  h : Z;
  zoom : Z;
  x : Z;
  y : Z
}.

(** [NewMap]: every field at its zero value. *)
Definition NewMap : Map :=
  {| pixels := None; w := 0; h := 0; zoom := 0; x := 0; y := 0 |}.

(** Every integer field holds a Go [int]. *)
Definition wf_Map (m : Map) : Prop :=
  is_int (w m) /\ is_int (h m) /\ is_int (zoom m) /\ is_int (x m) /\ is_int (y m).

(** ** The button callbacks of [CreateRenderer]

    Each closure mutates [m] and then calls [m.Refresh()], which only asks
    the toolkit for a repaint; the state functions below are the closures
    without that request. *)

(** [theme.ZoomInIcon()] *)
Definition zoomIn (m : Map) : Map :=
  if 19 <=? zoom m then m
  else {| pixels := pixels m; w := w m; h := h m;
          zoom := add (zoom m) 1;
          x := mul (x m) 2;
          y := mul (y m) 2 |}.

(** [theme.ZoomOutIcon()] *)
Definition zoomOut (m : Map) : Map :=
  if zoom m <=? 0 then m
  else {| pixels := pixels m; w := w m; h := h m;
          zoom := sub (zoom m) 1;
          x := quo (x m) 2;
          y := quo (y m) 2 |}.

(** [theme.MoveUpIcon()] *)
Definition moveUp (m : Map) : Map :=
  {| pixels := pixels m; w := w m; h := h m; zoom := zoom m;
     x := x m; y := sub (y m) 1 |}.

(** [theme.NavigateBackIcon()] *)
Definition navigateBack (m : Map) : Map :=
  {| pixels := pixels m; w := w m; h := h m; zoom := zoom m;
     x := sub (x m) 1; y := y m |}.

(** [theme.NavigateNextIcon()] *)
Definition navigateNext (m : Map) : Map :=
  {| pixels := pixels m; w := w m; h := h m; zoom := zoom m;
     x := add (x m) 1; y := y m |}.

(** [theme.MoveDownIcon()] *)
Definition moveDown (m : Map) : Map :=
  {| pixels := pixels m; w := w m; h := h m; zoom := zoom m;
     x := x m; y := add (y m) 1 |}.

(** [n] presses of one button. *)
Definition presses (n : nat) (button : Map -> Map) (m : Map) : Map :=
  Nat.iter n button m.

(** ** The collaborators of [draw]

    [getTile] is the widget's tile fetcher: it talks to the network through
    the client [m.cl], so it is a transition on the state of that outside
    world, returning the tile image or an error.  [Resize] stands for
    [resize.Resize(_, _, _, resize.Lanczos2)] of [github.com/nfnt/resize]. *)
Record Env : Type := mkEnv {
  TileSource : Type;
  FetchError : Type;
  getTile : TileSource -> Z -> Z -> Z -> (Image + FetchError) * TileSource;
  Resize : Z -> Z -> Image -> Image
}.

(** What a call of [draw] does to the outside, in order. *)
Inductive event (E : Env) : Type :=
| Fetch (tx ty z : Z)                                (* getTile(x, y, m.zoom, m.cl) *)
| LogError (err : FetchError E)                      (* fyne.LogError *)
| Copied (dst : ptr) (pos : Point) (sr : Rectangle). (* draw.Copy *)

Arguments Fetch {E} tx ty z.
Arguments LogError {E} err.
Arguments Copied {E} dst pos sr.

(** The widget [this], the heap of pixel buffers (a buffer's address is its
    index), the tile source and the events so far. *)
Record State (E : Env) : Type := mkState {
  this : Map;
  heap : list NRGBA;
  net : TileSource E;
  trace : list (event E)
}.

Arguments mkState {E} this heap net trace.
Arguments this {E} s.
Arguments heap {E} s.
Arguments net {E} s.
Arguments trace {E} s.

(** How a run ends: normally, in a run-time panic, or (an artefact of the
    model) with the loop budget used up.  Each carries the state reached. *)
Inductive res (St : Type) : Type :=
| Ok (s : St)
| Panic (s : St)
| OutOfFuel (s : St).

Arguments Ok {St} s.
Arguments Panic {St} s.
Arguments OutOfFuel {St} s.

Definition state_of {St : Type} (r : res St) : St :=
  match r with Ok s | Panic s | OutOfFuel s => s end.

(** The call returned normally. *)
Definition returns {St : Type} (r : res St) : bool :=
  match r with Ok _ => true | _ => false end.

(** [for i := i0; cond(i); i++ { body }] with at most [fuel] tests of the
    condition. *)
Fixpoint for_loop {St : Type} (fuel : nat) (cond : Z -> bool)
    (body : Z -> St -> res St) (i : Z) (s : St) : res St :=
  match fuel with
  | O => OutOfFuel s
  | S fuel' =>
      if cond i then
        match body i s with
        | Ok s' => for_loop fuel' cond body (add i 1) s'
        | r => r
        end
      else Ok s
  end.

(** Overwrite the buffer at address [p]. *)
Fixpoint store (hp : list NRGBA) (p : ptr) (b : NRGBA) : list NRGBA :=
  match hp, p with
  | [], _ => []
  | _ :: tl, O => b :: tl
  | b0 :: tl, S p' => b0 :: store tl p' b
  end.

(** ** [draw] *)

Definition tileSize : Z := 256.

(** The scale of the canvas the widget is on: [canvas] is [c.Scale()] when
    [CanvasForObject(m)] finds a canvas [c], and [None] when it is nil. *)
Definition canvasScale (canvas : option float32) : Z :=
  match canvas with
  | None => 1
  | Some f => let scale := to_int f in if scale <? 1 then 1 else scale
  end.

(** [int(float32(count)/2 - 0.5)] *)
Definition halfCount (count : Z) : Z :=
  to_int (sub32 (div32 (float32_of_int count) two32) half32).

(** [int(math.Ceil(float64(mid)/float64(tileSize)))] *)
Definition ceilTiles (mid tileSize : Z) : Z :=
  to_int (Ceil (div64 (float64_of_int mid) (float64_of_int tileSize))).

(** The local variables of [draw] before its loops; [tilePx] is the local
    [tileSize] once scaled. *)
Record Locals : Type := mkLocals {
  scale : Z;
  tilePx : Z;
  midTileX : Z;
  midTileY : Z;
  count : Z;
  mx : Z;
  my : Z;
  firstTileX : Z;
  firstTileY : Z
}.

Definition locals (canvas : option float32) (wpx hpx : Z) (m : Map) : Locals :=
  let scale := canvasScale canvas in
  let tilePx := match canvas with
                | None => tileSize
                | Some _ => mul tileSize scale
                end in
  let midTileX := quo (sub wpx (mul tilePx 2)) 2 in
  let midTileY := quo (sub hpx (mul tilePx 2)) 2 in
  let midTileX := if zoom m =? 0 then add midTileX (quo tilePx 2) else midTileX in
  let midTileY := if zoom m =? 0 then add midTileY (quo tilePx 2) else midTileY in
  let count := shl 1 (zoom m) in
  let mx := add (x m) (halfCount count) in
  let my := add (y m) (halfCount count) in
  {| scale := scale; tilePx := tilePx;
     midTileX := midTileX; midTileY := midTileY;
     count := count; mx := mx; my := my;
     firstTileX := sub mx (ceilTiles midTileX tilePx);
     firstTileY := sub my (ceilTiles midTileY tilePx) |}.

(** Where tile [(tx, ty)] goes: [pos] of the source. *)
Definition tilePos (l : Locals) (tx ty : Z) : Point :=
  Pt (add (midTileX l) (mul (sub tx (mx l)) (tilePx l)))
     (add (midTileY l) (mul (sub ty (my l)) (tilePx l))).

(** The source rectangle handed to [draw.Copy]. *)
Definition tileRect (l : Locals) : Rectangle := Rect 0 0 (tilePx l) (tilePx l).

(** The destination rectangle [draw.Copy] derives from them. *)
Definition destRect (l : Locals) (tx ty : Z) : Rectangle :=
  Add (tileRect l) (PtSub (tilePos l tx ty) (Min (tileRect l))).

(** Line 110: [m.w != w || m.h != h]. *)
Definition sizeChanged (m : Map) (wpx hpx : Z) : bool :=
  negb (w m =? wpx) || negb (h m =? hpx).

Section Draw.

Variable E : Env.

Definition log (ev : event E) (st : State E) : State E :=
  mkState (this st) (heap st) (net st) (trace st ++ [ev]).

(** Lines 110-112: a new buffer when the stored size differs from the
    requested one.  Nothing in the file assigns [m.w] or [m.h]. *)
Definition reallocate (wpx hpx : Z) (st : State E) : res (State E) :=
  let m := this st in
  if sizeChanged m wpx hpx then
    match NewNRGBA (Rect 0 0 wpx hpx) with
    | None => Panic st
    | Some buf =>
        Ok (mkState
              {| pixels := Some (length (heap st)); w := w m; h := h m;
                 zoom := zoom m; x := x m; y := y m |}
              (heap st ++ [buf]) (net st) (trace st))
    end
  else Ok st.

(** The loop test on either axis:
    [(i-first)*tileSize <= size+tileSize]. *)
Definition inView (l : Locals) (first size i : Z) : bool :=
  mul (sub i first) (tilePx l) <=? add size (tilePx l).

(** Line 129: the tile lies outside the grid of this zoom level. *)
Definition offGrid (l : Locals) (tx ty : Z) : bool :=
  (tx <? 0) || (ty <? 0) || (tx >=? count l) || (ty >=? count l).

(** Lines 141-144: the tile as fetched, or resampled to the scaled tile
    size when [scale > 1]. *)
Definition scaledTile (l : Locals) (src : Image) : Image :=
  if 1 <? scale l
  then Resize E (to_uint (tilePx l)) (to_uint (tilePx l)) src
  else src.

(** Lines 129-145: the body of the inner loop for tile [(tx, ty)]. *)
Definition drawTile (l : Locals) (tx ty : Z) (st : State E) : res (State E) :=
  if offGrid l tx ty then Ok st
  else
    let (r, net') := getTile E (net st) tx ty (zoom (this st)) in
    let st1 := log (Fetch tx ty (zoom (this st)))
                   (mkState (this st) (heap st) net' (trace st)) in
    match r with
    | inr err => Ok (log (LogError err) st1)
    | inl src =>
        let pos := tilePos l tx ty in
        let scaled := scaledTile l src in
        match pixels (this st1) with
        | None => Panic st1      (* draw.Copy reads the bounds of a nil buffer *)
        | Some p =>
            match nth_error (heap st1) p with
            | None => Panic st1
            | Some dst =>
                Ok (log (Copied p pos (tileRect l))
                      (mkState (this st1)
                         (store (heap st1) p (draw.Copy dst pos scaled (tileRect l)))
                         (net st1) (trace st1)))
            end
        end
    end.

(** Lines 127-147: the two nested loops. *)
Definition drawTiles (fuel : nat) (l : Locals) (wpx hpx : Z) (st : State E)
  : res (State E) :=
  for_loop fuel (inView l (firstTileX l) wpx)
    (fun tx =>
       for_loop fuel (inView l (firstTileY l) hpx)
         (fun ty => drawTile l tx ty)
         (firstTileY l))
    (firstTileX l) st.

(** [func (m *Map) draw(w, h int) image.Image]; the image returned is
    [m.pixels] of the final state.  [1 << m.zoom] panics on a negative
    [m.zoom]. *)
Definition draw (fuel : nat) (canvas : option float32) (wpx hpx : Z)
    (st : State E) : res (State E) :=
  match reallocate wpx hpx st with
  | Ok st1 =>
      if zoom (this st1) <? 0 then Panic st1
      else drawTiles fuel (locals canvas wpx hpx (this st1)) wpx hpx st1
  | r => r
  end.

(** The value [draw] returns: the buffer [m.pixels] points to. *)
Definition returned (st : State E) : option NRGBA :=
  match pixels (this st) with
  | None => None
  | Some p => nth_error (heap st) p
  end.

(** The tiles fetched, in order. *)
Definition fetched (tr : list (event E)) : list (Z * Z * Z) :=
  flat_map (fun ev => match ev with
                      | Fetch tx ty z => [(tx, ty, z)]
                      | _ => []
                      end) tr.

(** The placements made, in order. *)
Definition copies (tr : list (event E)) : list (ptr * Point * Rectangle) :=
  flat_map (fun ev => match ev with
                      | Copied p pos sr => [(p, pos, sr)]
                      | _ => []
                      end) tr.

End Draw.

Arguments fetched {E} tr.
Arguments copies {E} tr.
Arguments returned {E} st.

(** ** The loops of [draw] with the budget taken away *)

(** [body] for each index of a list, stopping at the first panic. *)
Fixpoint for_each {St : Type} (body : Z -> St -> res St) (l : list Z) (s : St)
  : res St :=
  match l with
  | [] => Ok s
  | i :: tl =>
      match body i s with
      | Ok s' => for_each body tl s'
      | r => r
      end
  end.

(** The first [n] values of a loop variable started at [i] and stepped by
    [i++]. *)
Fixpoint indices (i : Z) (n : nat) : list Z :=
  match n with
  | O => []
  | S n' => i :: indices (add i 1) n'
  end.

(** How many times a loop of [draw] over [size] pixels runs its body when
    nothing overflows: for [k = 0 .. (size+tilePx)/tilePx]. *)
Definition steps (l : Locals) (size : Z) : nat :=
  if size + tilePx l <? 0 then O
  else Z.to_nat ((size + tilePx l) / tilePx l + 1).

Definition columns (l : Locals) (wpx : Z) : list Z :=
  indices (firstTileX l) (steps l wpx).

Definition rows (l : Locals) (hpx : Z) : list Z :=
  indices (firstTileY l) (steps l hpx).

(** The candidates that pass the test of line 129, in scanning order, as
    [getTile] is called with them. *)
Definition gridTiles (l : Locals) (z : Z) (xs ys : list Z) : list (Z * Z * Z) :=
  flat_map (fun tx =>
    map (fun ty => (tx, ty, z))
        (filter (fun ty => negb (offGrid l tx ty)) ys)) xs.

(** A loop budget that suffices for a call. *)
Definition enough (l : Locals) (wpx hpx : Z) : nat :=
  S (Nat.max (steps l wpx) (steps l hpx)).

(** The operating range of [draw]: a non-negative output size which,
    with two more tiles, still fits an [int]. *)
Definition in_range (canvas : option float32) (wpx hpx : Z) : Prop :=
  0 <= wpx /\ 0 <= hpx /\
  wpx + 512 * canvasScale canvas <= maxInt /\
  hpx + 512 * canvasScale canvas <= maxInt.

(** The errors logged, in order. *)
Definition errors {E : Env} (tr : list (event E)) : list (FetchError E) :=
  flat_map (fun ev => match ev with
                      | LogError err => [err]
                      | _ => []
                      end) tr.

(** An invariant of both loops: the widget is untouched and every tile
    fetched since [st0] is on the grid of [l]. *)
Definition fetches_on_grid {E : Env} (l : Locals) (st0 st : State E) : Prop :=
  this st = this st0 /\
  exists evs, trace st = trace st0 ++ evs /\
    Forall (fun t => let '(tx, ty, z) := t in
              (0 <= tx < count l /\ 0 <= ty < count l) /\ z = zoom (this st0))
           (fetched evs).

(** Sizes [image.NewNRGBA] accepts. *)
Definition allocatable (wpx hpx : Z) : Prop :=
  0 <= wpx < 2 ^ 62 /\ 0 <= hpx <= maxInt /\ 4 * wpx * hpx <= maxInt.

(** From [st] to [st'] the widget and every buffer stayed as they were,
    the tiles [tiles] were fetched in this order, each fetch was answered
    by a logged error, and nothing was copied. *)
Definition only_failures {E : Env} (st st' : State E) (tiles : list (Z * Z * Z))
  : Prop :=
  this st' = this st /\ heap st' = heap st /\
  exists evs, trace st' = trace st ++ evs /\
    fetched evs = tiles /\ copies evs = [] /\
    length (errors evs) = length tiles.

(** The pixels [draw.Copy] writes for tile [(tx, ty)]: its destination
    rectangle clipped to the buffer and to the image copied. *)
Definition painted (l : Locals) (dst : NRGBA) (img : Image) (tx ty : Z) : Rectangle :=
  fst (draw.clip dst (destRect l tx ty) img (Min (tileRect l))).

(** A colour whose channels are [uint16] values. *)
Definition valid16 (c : RGBA64) : Prop :=
  let 'rgba64 r g b a := c in
  0 <= r < 65536 /\ 0 <= g < 65536 /\ 0 <= b < 65536 /\ 0 <= a < 65536.

(** The alpha channel. *)
Definition alpha (c : RGBA64) : Z := let 'rgba64 _ _ _ a := c in a.

(** A stored colour that is fully opaque, its channels [uint8] values. *)
Definition opaque8 (c : NRGBAColor) : Prop :=
  let 'nrgba r g b a := c in
  0 <= r < 256 /\ 0 <= g < 256 /\ 0 <= b < 256 /\ a = 255.

(** An invariant of both loops inside the operating range: every tile
    fetched since [st0] is in a column and a row the loops visit, and every
    copy made since then puts a fetched tile at its [tilePos]. *)
Definition fetches_in_view {E : Env} (l : Locals) (wpx hpx : Z) (st0 st : State E)
  : Prop :=
  exists evs, trace st = trace st0 ++ evs /\
    Forall (fun t => let '(tx, ty, _) := t in
              In tx (columns l wpx) /\ In ty (rows l hpx))
           (fetched evs) /\
    forall p pos sr, In (p, pos, sr) (copies evs) ->
      exists tx ty z, In (tx, ty, z) (fetched evs) /\
        pos = tilePos l tx ty /\ sr = tileRect l.

(** A point lies in a rectangle. *)
Definition inside (px py : Z) (r : Rectangle) : Prop :=
  PtIn (Pt px py) r = true.

(** ** Concrete states and collaborators used in the examples *)

(** Zoom level 19, ten tiles right of the grid's middle. *)
Definition atMaxZoom : Map :=
  {| pixels := None; w := 0; h := 0; zoom := 19; x := 10; y := 0 |}.

(** A centre whose double does not fit an [int]. *)
Definition farEast : Map :=
  {| pixels := None; w := 0; h := 0; zoom := 0; x := 2 ^ 62; y := 0 |}.

(** Zoom level 5, centre (7, -3). *)
Definition midZoom : Map :=
  {| pixels := None; w := 0; h := 0; zoom := 5; x := 7; y := -3 |}.

(** The locals of [draw] for a 512 by 512 output at zoom level 0, centre
    (0, 0) and scale 1. *)
Definition worldView : Locals :=
  {| scale := 1; tilePx := 256; midTileX := 128; midTileY := 128;
     count := 1; mx := 0; my := 0; firstTileX := -1; firstTileY := -1 |}.

(** A tile of opaque red and a fully transparent one, both 256 by 256. *)
Definition redTile : Image :=
  mkImage (Rect 0 0 256 256) (fun _ _ => rgba64 65535 0 0 65535).

Definition clearTile : Image :=
  mkImage (Rect 0 0 256 256) (fun _ _ => rgba64 0 0 0 0).

(** A stand-in resampler: nearest neighbour. *)
Definition stretch (wd ht : Z) (img : Image) : Image :=
  mkImage (Rect 0 0 wd ht)
    (fun px py => RGBA64At img (px * 256 / wd) (py * 256 / ht)).

(** A tile source that is unreachable, one that serves the red tile, and
    one that serves the red tile four times and the transparent one from
    then on. *)
Definition offline : Env :=
  mkEnv unit unit (fun ts _ _ _ => (inr tt, ts)) stretch.

Definition redServer : Env :=
  mkEnv unit unit (fun ts _ _ _ => (inl redTile, ts)) stretch.

Definition fadingServer : Env :=
  mkEnv nat unit
    (fun n _ _ _ => (inl (if (n <? 4)%nat then redTile else clearTile), S n))
    stretch.

(** A new widget that has not drawn yet. *)
Definition fresh (E : Env) (ts : TileSource E) : State E :=
  mkState NewMap [] ts [].

(** The colour of a pixel of the buffer [m.pixels] points to. *)
Definition pixelAt {E : Env} (st : State E) (px py : Z) : option NRGBAColor :=
  option_map (fun b => PixAt b px py) (returned st).

(** A widget zoomed in once, on the source that turns transparent after
    four tiles. *)
Definition zoomedOnce : State fadingServer :=
  @mkState fadingServer (zoomIn NewMap) [] 0%nat [].

(** A widget holding a blank 512 by 512 buffer, on the red source. *)
Definition onBlank : State redServer :=
  @mkState redServer
    {| pixels := Some 0%nat; w := 0; h := 0; zoom := 0; x := 0; y := 0 |}
    [blank (Rect 0 0 512 512)] tt [].

(** A widget at zoom level 2 that has not drawn yet, on the red source. *)
Definition atZoom2 : State redServer :=
  @mkState redServer
    {| pixels := None; w := 0; h := 0; zoom := 2; x := 0; y := 0 |} [] tt [].

(** A canvas whose scale is 2^54, and one whose scale is 3 * 2^52: a tile
    is then 2^62 and 3 * 2^60 pixels wide. *)
Definition hugeScale : float32 := S754_finite false 8388608 31.

Definition largeScale : float32 := S754_finite false 12582912 30.

(** A widget at zoom level 4 that has not drawn yet, on the unreachable
    source; and the same one panned seven tiles up. *)
Definition atZoom4 : State offline :=
  @mkState offline
    {| pixels := None; w := 0; h := 0; zoom := 4; x := 0; y := 0 |} [] tt [].

Definition atZoom4North : State offline :=
  @mkState offline
    {| pixels := None; w := 0; h := 0; zoom := 4; x := 0; y := -7 |} [] tt [].

(** ** Sequences of presses and of calls

    The user presses buttons and the toolkit calls [draw] with the size it
    likes, in any order. *)

Inductive button : Type :=
| ZoomIn | ZoomOut | MoveUp | NavigateBack | NavigateNext | MoveDown.

Definition press (b : button) (m : Map) : Map :=
  match b with
  | ZoomIn => zoomIn m
  | ZoomOut => zoomOut m
  | MoveUp => moveUp m
  | NavigateBack => navigateBack m
  | NavigateNext => navigateNext m
  | MoveDown => moveDown m
  end.

Definition pressAll (bs : list button) (m : Map) : Map :=
  fold_left (fun m b => press b m) bs m.

(** The four pan buttons. *)
Definition isPan (b : button) : bool :=
  match b with
  | ZoomIn | ZoomOut => false
  | _ => true
  end.

(** How often a button occurs in a sequence. *)
Definition times (b : button) (bs : list button) : Z :=
  Z.of_nat (length (filter (fun b' =>
    match b, b' with
    | ZoomIn, ZoomIn | ZoomOut, ZoomOut | MoveUp, MoveUp
    | NavigateBack, NavigateBack | NavigateNext, NavigateNext
    | MoveDown, MoveDown => true
    | _, _ => false
    end) bs)).

Inductive action : Type :=
| Press (b : button)
| Draw (canvas : option float32) (wpx hpx : Z).

(** A session: the actions in order, until one of them panics. *)
Fixpoint session (E : Env) (fuel : nat) (acts : list action) (st : State E)
  : res (State E) :=
  match acts with
  | [] => Ok st
  | Press b :: tl =>
      session E fuel tl (mkState (press b (this st)) (heap st) (net st) (trace st))
  | Draw canvas wpx hpx :: tl =>
      match draw E fuel canvas wpx hpx st with
      | Ok st' => session E fuel tl st'
      | r => r
      end
  end.

(** What holds of the widget however it got where it is: the stored size
    is still 0 by 0, the zoom level is one the buttons allow, every field
    is an [int], and [m.pixels] is nil or the address of a buffer. *)
Definition reachable_shape {E : Env} (st : State E) : Prop :=
  w (this st) = 0 /\ h (this st) = 0 /\
  0 <= zoom (this st) <= 19 /\
  is_int (x (this st)) /\ is_int (y (this st)) /\
  match pixels (this st) with
  | None => True
  | Some p => (p < length (heap st))%nat
  end.

(** The run was not cut short by the loop budget. *)
Definition finished {St : Type} (r : res St) : bool :=
  match r with OutOfFuel _ => false | _ => true end.

(** From [st0] to [st] the widget is the same, no buffer was added or
    lost, every buffer kept its bounds, and only the buffer [m.pixels]
    points to may have new content. *)
Definition same_buffers {E : Env} (st0 st : State E) : Prop :=
  this st = this st0 /\
  length (heap st) = length (heap st0) /\
  forall a b, nth_error (heap st0) a = Some b ->
    exists b', nth_error (heap st) a = Some b' /\ NRect b' = NRect b /\
               (Some a <> pixels (this st0) -> b' = b).

(** One list is the beginning of another. *)
Definition prefix {A : Type} (l1 l2 : list A) : Prop :=
  exists rest, l2 = l1 ++ rest.

(** A scan of the candidates [tiles] that started in [st] and ended as
    [r]: it was not cut short by the budget, it left the widget alone, it
    fetched a beginning of [tiles] in order, and if it returned it fetched
    all of them and answered each fetch by one copy or one logged
    error. *)
Definition scanned {E : Env} (st : State E) (r : res (State E))
    (tiles : list (Z * Z * Z)) : Prop :=
  finished r = true /\
  this (state_of r) = this st /\
  exists evs, trace (state_of r) = trace st ++ evs /\
    prefix (fetched evs) tiles /\
    (returns r = true ->
     fetched evs = tiles /\
     (length (copies evs) + length (errors evs) = length tiles)%nat).

(** From [st0], whose [m.pixels] points to a buffer, to [st]: the buffers
    are the same ones and every copy made since went to that buffer. *)
Definition drawing {E : Env} (st0 st : State E) : Prop :=
  same_buffers st0 st /\
  exists evs, trace st = trace st0 ++ evs /\
    forall p pos sr, In (p, pos, sr) (copies evs) -> Some p = pixels (this st0).

(** Every fetch succeeds. *)
Definition always_served (E : Env) : Prop :=
  forall ts tx ty z, exists src ts', getTile E ts tx ty z = (inl src, ts').

(** The colour tile [(tx, ty)] with image [src] gives pixel [(px, py)] of
    a blank buffer: the pixel of the (resampled) image at the offset from
    the tile's position, composed over transparent black. *)
Definition shownColour (E : Env) (l : Locals) (src : Image) (tx ty px py : Z)
  : NRGBAColor :=
  NRGBA_of_RGBA64
    (draw.over (rgba64 0 0 0 0)
       (RGBA64At (scaledTile E l src)
          (sub px (X (tilePos l tx ty))) (sub py (Y (tilePos l tx ty))))).

(** Buffer [b], of bounds [R], shows the tiles of the set [D] that are on
    the grid and were served, each in what [draw.Copy] writes for it, and
    is transparent black elsewhere; [answer] is what the tile source says
    for a tile. *)
Definition picture (E : Env) (l : Locals) (R : Rectangle)
    (answer : Z -> Z -> Image + FetchError E) (D : Z -> Z -> Prop) (b : NRGBA)
  : Prop :=
  NRect b = R /\
  forall px py,
    (forall tx ty src,
        D tx ty -> offGrid l tx ty = false -> answer tx ty = inl src ->
        inside px py (painted l (blank R) (scaledTile E l src) tx ty) ->
        PixAt b px py = shownColour E l src tx ty px py) /\
    ((forall tx ty src,
        D tx ty -> offGrid l tx ty = false -> answer tx ty = inl src ->
        ~ inside px py (painted l (blank R) (scaledTile E l src) tx ty)) ->
     PixAt b px py = nrgba 0 0 0 0).

(** State [st] draws into the buffer at [p0], which shows the tiles of
    [D]. *)
Definition showing (E : Env) (l : Locals) (R : Rectangle)
    (answer : Z -> Z -> Image + FetchError E) (p0 : ptr) (z : Z)
    (D : Z -> Z -> Prop) (st : State E) : Prop :=
  pixels (this st) = Some p0 /\ zoom (this st) = z /\
  exists b, nth_error (heap st) p0 = Some b /\ picture E l R answer D b.

(** * Properties *)

(** ** Wrap-around arithmetic *)

Section GoIntFacts.

Lemma wrap_is_int n : is_int (wrap n).
Proof.
  unfold is_int, wrap, minInt, maxInt.
  pose proof (Z.mod_pos_bound (n + 2 ^ 63) (2 ^ 64) ltac:(lia)). lia.
Qed.

Lemma wrap_id n : is_int n -> wrap n = n.
Proof.
  unfold is_int, wrap, minInt, maxInt. intros H.
  rewrite Z.mod_small; lia.
Qed.

(** [wrap n] differs from [n] by a multiple of 2^64. *)
Lemma wrap_spec n : exists q, wrap n = n + 2 ^ 64 * q.
Proof.
  exists (- ((n + 2 ^ 63) / 2 ^ 64)). unfold wrap.
  rewrite (Z.mod_eq (n + 2 ^ 63) (2 ^ 64)) by lia.
  set (q := (n + 2 ^ 63) / 2 ^ 64). lia.
Qed.

Lemma wrap_congr a b q : a = b + 2 ^ 64 * q -> wrap a = wrap b.
Proof.
  intros ->. unfold wrap. f_equal.
  replace (b + 2 ^ 64 * q + 2 ^ 63) with (b + 2 ^ 63 + q * 2 ^ 64) by lia.
  apply Z.mod_add. lia.
Qed.

Lemma wrap_add_l a b : wrap (wrap a + b) = wrap (a + b).
Proof. destruct (wrap_spec a) as [q Hq]. apply (wrap_congr _ _ q). lia. Qed.

Lemma wrap_add_r a b : wrap (a + wrap b) = wrap (a + b).
Proof. destruct (wrap_spec b) as [q Hq]. apply (wrap_congr _ _ q). lia. Qed.

Lemma wrap_sub_l a b : wrap (wrap a - b) = wrap (a - b).
Proof. destruct (wrap_spec a) as [q Hq]. apply (wrap_congr _ _ q). lia. Qed.

Lemma wrap_sub_r a b : wrap (a - wrap b) = wrap (a - b).
Proof. destruct (wrap_spec b) as [q Hq]. apply (wrap_congr _ _ (- q)). lia. Qed.

Lemma wrap_idem a : wrap (wrap a) = wrap a.
Proof. apply wrap_id, wrap_is_int. Qed.

(** Doubling and halving an [int] whose double fits. *)
Lemma double_halve n : - 2 ^ 62 <= n < 2 ^ 62 -> quo (mul n 2) 2 = n.
Proof.
  intros H. unfold quo, mul.
  rewrite (wrap_id (n * 2)) by (unfold is_int, minInt, maxInt; lia).
  rewrite Z.quot_mul by lia.
  apply wrap_id. unfold is_int, minInt, maxInt. lia.
Qed.

End GoIntFacts.

(** ** Zoom and pan *)

Section ZoomPan.

Lemma presses_S n button m : presses (S n) button m = button (presses n button m).
Proof. reflexivity. Qed.

Lemma presses_navigateNext n m :
  presses n navigateNext m =
  {| pixels := pixels m; w := w m; h := h m; zoom := zoom m;
     x := Nat.iter n (fun v => add v 1) (x m); y := y m |}.
Proof.
  induction n as [| n IH].
  - destruct m; reflexivity.
  - rewrite presses_S, IH. reflexivity.
Qed.

Lemma presses_navigateBack n m :
  presses n navigateBack m =
  {| pixels := pixels m; w := w m; h := h m; zoom := zoom m;
     x := Nat.iter n (fun v => sub v 1) (x m); y := y m |}.
Proof.
  induction n as [| n IH].
  - destruct m; reflexivity.
  - rewrite presses_S, IH. reflexivity.
Qed.

Lemma iter_add_1 n v : is_int v -> Nat.iter n (fun v => add v 1) v = wrap (v + Z.of_nat n).
Proof.
  intros Hv. induction n as [| n IH].
  - simpl. rewrite Z.add_0_r. symmetry. now apply wrap_id.
  - rewrite Nat.iter_succ, IH. unfold add. rewrite wrap_add_l. f_equal. lia.
Qed.

Lemma iter_sub_1 n v : is_int v -> Nat.iter n (fun v => sub v 1) v = wrap (v - Z.of_nat n).
Proof.
  intros Hv. induction n as [| n IH].
  - simpl. rewrite Z.sub_0_r. symmetry. now apply wrap_id.
  - rewrite Nat.iter_succ, IH. unfold sub. rewrite wrap_sub_l. f_equal. lia.
Qed.

(** C7: [n] presses of the pan-right button followed by [n] presses of the
    pan-left button bring [m.x], and with it the whole widget state, back
    to what it was, for every [int] value of [m.x] and every [n]: the
    steps wrap around but are never clamped or truncated. *)
Theorem pan_right_then_left_restores :
  forall (n : nat) (m : Map),
    is_int (x m) ->
    presses n navigateBack (presses n navigateNext m) = m /\
    x (presses n navigateBack (presses n navigateNext m)) = x m.
Proof.
  intros n m Hx.
  assert (E : presses n navigateBack (presses n navigateNext m) = m).
  { rewrite presses_navigateBack, presses_navigateNext. simpl.
    rewrite (iter_add_1 n (x m) Hx).
    rewrite iter_sub_1 by apply wrap_is_int.
    rewrite wrap_sub_l.
    replace (x m + Z.of_nat n - Z.of_nat n) with (x m) by lia.
    rewrite (wrap_id _ Hx). destruct m; reflexivity. }
  split; [exact E | now rewrite E].
Qed.

Lemma pan_right_then_left_restores_witness :
  is_int (x midZoom) /\
  presses 3 navigateBack (presses 3 navigateNext midZoom) = midZoom /\
  x (presses 3 navigateBack (presses 3 navigateNext midZoom)) = x midZoom.
Proof.
  assert (H : is_int (x midZoom)) by (vm_compute; split; discriminate).
  split; [exact H | exact (pan_right_then_left_restores 3 midZoom H)].
Defined.

Lemma zoomIn_refused m : 19 <= zoom m -> zoomIn m = m.
Proof.
  intros H. unfold zoomIn.
  destruct (19 <=? zoom m) eqn:E; [reflexivity | apply Z.leb_gt in E; lia].
Qed.

Lemma zoomOut_refused m : zoom m <= 0 -> zoomOut m = m.
Proof.
  intros H. unfold zoomOut.
  destruct (zoom m <=? 0) eqn:E; [reflexivity | apply Z.leb_gt in E; lia].
Qed.

(** C9: a refused zoom changes nothing: zoom-in at level 19 or above and
    zoom-out at level 0 or below return the state as it was, with the zoom
    level and both centre coordinates untouched. *)
Theorem zoom_refused_is_noop :
  forall m : Map,
    (19 <= zoom m -> zoomIn m = m) /\
    (zoom m <= 0 -> zoomOut m = m).
Proof.
  intros m. split; intros H.
  - destruct m as [px mw mh mz mx my]. simpl in H.
    rewrite zoomIn_refused by exact H. reflexivity.
  - destruct m as [px mw mh mz mx my]. simpl in H.
    rewrite zoomOut_refused by exact H. reflexivity.
Qed.

Lemma zoom_refused_is_noop_witness :
  zoomIn atMaxZoom = atMaxZoom /\ zoomOut NewMap = NewMap.
Proof.
  split.
  - apply (proj1 (zoom_refused_is_noop atMaxZoom)). simpl. lia.
  - apply (proj2 (zoom_refused_is_noop NewMap)). simpl. lia.
Defined.

(** Zoom-in then zoom-out below the ceiling, on a centre that can be
    doubled. *)
Lemma zoomOut_zoomIn m :
  0 <= zoom m <= 18 ->
  - 2 ^ 62 <= x m < 2 ^ 62 ->
  - 2 ^ 62 <= y m < 2 ^ 62 ->
  zoomOut (zoomIn m) = m.
Proof.
  intros Hz Hx Hy. unfold zoomIn.
  destruct (19 <=? zoom m) eqn:E; [apply Z.leb_le in E; lia |].
  unfold zoomOut. simpl.
  assert (Ez : add (zoom m) 1 = zoom m + 1).
  { apply wrap_id. unfold is_int, minInt, maxInt. lia. }
  rewrite Ez.
  destruct (zoom m + 1 <=? 0) eqn:E2; [apply Z.leb_le in E2; lia |].
  rewrite !double_halve by assumption.
  unfold sub. replace (zoom m + 1 - 1) with (zoom m) by lia.
  rewrite wrap_id by (unfold is_int, minInt, maxInt; lia).
  destruct m; reflexivity.
Qed.

(** At the ceiling the pair of presses only zooms out. *)
Lemma zoomOut_zoomIn_clamped m :
  19 <= zoom m -> is_int (zoom m) -> is_int (x m) -> is_int (y m) ->
  zoomOut (zoomIn m) =
  {| pixels := pixels m; w := w m; h := h m; zoom := zoom m - 1;
     x := Z.quot (x m) 2; y := Z.quot (y m) 2 |}.
Proof.
  intros Hz Iz Ix Iy. rewrite (zoomIn_refused m Hz).
  unfold zoomOut. destruct (zoom m <=? 0) eqn:E; [apply Z.leb_le in E; lia |].
  unfold sub, quo, is_int, minInt, maxInt in *.
  pose proof (Z.quot_pos (x m) 2). pose proof (Z.quot_pos (y m) 2).
  assert (Hq : forall v, - 2 ^ 63 <= v <= 2 ^ 63 - 1 ->
                         - 2 ^ 63 <= Z.quot v 2 <= 2 ^ 63 - 1).
  { intros v Hv. pose proof (Z.quot_lt_upper_bound).
    destruct (Z_le_gt_dec 0 v).
    - pose proof (Z.quot_pos v 2 ltac:(lia) ltac:(lia)).
      pose proof (Z.quot_le_upper_bound v 2 (2 ^ 63 - 1) ltac:(lia) ltac:(lia)). lia.
    - rewrite <- (Z.opp_involutive v), Z.quot_opp_l by lia.
      pose proof (Z.quot_pos (- v) 2 ltac:(lia) ltac:(lia)).
      pose proof (Z.quot_le_upper_bound (- v) 2 (2 ^ 63) ltac:(lia) ltac:(lia)). lia. }
  rewrite !wrap_id; unfold is_int, minInt, maxInt; auto; lia.
Qed.

(** C10 (amended): for a state with [0 <= zoom <= 18] whose centre
    coordinates lie in [-2^62, 2^62), so that doubling them does not
    overflow the 64-bit [int], zoom-in followed by zoom-out restores the
    zoom level and both centre coordinates exactly. *)
Theorem zoom_in_out_exact :
  forall m : Map,
    0 <= zoom m <= 18 ->
    - 2 ^ 62 <= x m < 2 ^ 62 ->
    - 2 ^ 62 <= y m < 2 ^ 62 ->
    zoom (zoomOut (zoomIn m)) = zoom m /\
    x (zoomOut (zoomIn m)) = x m /\
    y (zoomOut (zoomIn m)) = y m.
Proof.
  intros m Hz Hx Hy. rewrite zoomOut_zoomIn by assumption. auto.
Qed.

Lemma zoom_in_out_exact_witness :
  zoom (zoomOut (zoomIn midZoom)) = zoom midZoom /\
  x (zoomOut (zoomIn midZoom)) = x midZoom /\
  y (zoomOut (zoomIn midZoom)) = y midZoom.
Proof.
  apply (zoom_in_out_exact midZoom); simpl; lia.
Defined.

(** C10 as stated fails where the doubling overflows: from zoom level 0
    with [m.x = 2^62], zoom-in wraps [m.x] to [-2^63] and zoom-out halves
    that to [-2^62]. *)
Lemma zoom_in_out_overflow :
  0 <= zoom farEast <= 18 /\ wf_Map farEast /\
  x farEast = 2 ^ 62 /\
  x (zoomIn farEast) = - 2 ^ 63 /\
  x (zoomOut (zoomIn farEast)) = - 2 ^ 62 /\
  x (zoomOut (zoomIn farEast)) <> x farEast.
Proof.
  unfold wf_Map, is_int. vm_compute.
  repeat split; discriminate.
Qed.

(** C4 (amended): from a state with [1 <= zoom <= 18] whose centre
    coordinates can be doubled without overflow, zoom-in followed by
    zoom-out yields a centre within one tile of the original (it is the
    original); from [zoom >= 19] the zoom-in is refused and the pair
    leaves the centre halved, with truncation, one level lower. *)
Theorem zoom_in_out_within_one_tile :
  forall m : Map,
    wf_Map m ->
    1 <= zoom m ->
    (zoom m <= 18 ->
     - 2 ^ 62 <= x m < 2 ^ 62 ->
     - 2 ^ 62 <= y m < 2 ^ 62 ->
     Z.abs (x (zoomOut (zoomIn m)) - x m) <= 1 /\
     Z.abs (y (zoomOut (zoomIn m)) - y m) <= 1) /\
    (19 <= zoom m ->
     zoom (zoomOut (zoomIn m)) = zoom m - 1 /\
     x (zoomOut (zoomIn m)) = Z.quot (x m) 2 /\
     y (zoomOut (zoomIn m)) = Z.quot (y m) 2).
Proof.
  intros m (_ & _ & Iz & Ix & Iy) Hz. split.
  - intros Hz' Hx Hy. rewrite zoomOut_zoomIn by (assumption || lia).
    rewrite !Z.sub_diag. simpl. lia.
  - intros Hz'. rewrite zoomOut_zoomIn_clamped by assumption. auto.
Qed.

Lemma zoom_in_out_within_one_tile_witness :
  (Z.abs (x (zoomOut (zoomIn midZoom)) - x midZoom) <= 1 /\
   Z.abs (y (zoomOut (zoomIn midZoom)) - y midZoom) <= 1) /\
  (zoom (zoomOut (zoomIn atMaxZoom)) = zoom atMaxZoom - 1 /\
   x (zoomOut (zoomIn atMaxZoom)) = Z.quot (x atMaxZoom) 2 /\
   y (zoomOut (zoomIn atMaxZoom)) = Z.quot (y atMaxZoom) 2).
Proof.
  assert (W1 : wf_Map midZoom) by (vm_compute; repeat split; discriminate).
  assert (W2 : wf_Map atMaxZoom) by (vm_compute; repeat split; discriminate).
  split.
  - apply (proj1 (zoom_in_out_within_one_tile midZoom W1 ltac:(simpl; lia)));
      simpl; lia.
  - apply (proj2 (zoom_in_out_within_one_tile atMaxZoom W2 ltac:(simpl; lia)));
      simpl; lia.
Defined.

(** C4 as stated fails at the ceiling: at zoom level 19 with [m.x = 10]
    the zoom-in is refused and the zoom-out leaves [m.x = 5], five tiles
    away. *)
Lemma zoom_in_out_drifts_at_ceiling :
  1 <= zoom atMaxZoom /\ wf_Map atMaxZoom /\
  x (zoomOut (zoomIn atMaxZoom)) = 5 /\
  ~ Z.abs (x (zoomOut (zoomIn atMaxZoom)) - x atMaxZoom) <= 1.
Proof.
  unfold wf_Map, is_int. vm_compute.
  repeat split; try discriminate. intros H. apply H. reflexivity.
Qed.

End ZoomPan.

(** ** Loops *)

Section Loops.

Context {St : Type}.

(** A property kept by every run of the body is kept by the loop, however
    it ends. *)
Lemma for_loop_inv (P : St -> Prop) (cond : Z -> bool) (body : Z -> St -> res St) :
  (forall i s, P s -> P (state_of (body i s))) ->
  forall fuel i s, P s -> P (state_of (for_loop fuel cond body i s)).
Proof.
  intros Hbody fuel. induction fuel as [| fuel IH]; intros i s Hs; simpl.
  - exact Hs.
  - destruct (cond i); [| exact Hs].
    pose proof (Hbody i s Hs) as Hb.
    destruct (body i s) as [s' | s' | s']; simpl in *; auto.
Qed.

(** With a budget above the number of iterations the loop is the iteration
    over its indices. *)
Lemma for_loop_unroll (cond : Z -> bool) (body : Z -> St -> res St) :
  forall n fuel i s,
    (n < fuel)%nat ->
    Forall (fun j => cond j = true) (indices i n) ->
    cond (Nat.iter n (fun v => add v 1) i) = false ->
    for_loop fuel cond body i s = for_each body (indices i n) s.
Proof.
  induction n as [| n IH]; intros fuel i s Hfuel Hall Hend.
  - destruct fuel as [| fuel]; [lia |]. simpl in *. now rewrite Hend.
  - destruct fuel as [| fuel]; [lia |]. simpl.
    inversion Hall as [| ? ? Hi Htl]; subst. rewrite Hi.
    destruct (body i s) as [s' | s' | s']; try reflexivity.
    apply IH; [lia | exact Htl |].
    rewrite Nat.iter_succ_r in Hend. exact Hend.
Qed.

Lemma for_each_ext (f g : Z -> St -> res St) l :
  (forall i s, In i l -> f i s = g i s) ->
  forall s, for_each f l s = for_each g l s.
Proof.
  induction l as [| i l IH]; intros H s; simpl; [reflexivity |].
  rewrite (H i s) by now left.
  destruct (g i s); try reflexivity.
  apply IH. intros j s' Hj. apply H. now right.
Qed.

End Loops.

Lemma indices_iter i n :
  is_int i -> indices i n = map (fun k => wrap (i + Z.of_nat k)) (seq 0 n).
Proof.
  revert i. induction n as [| n IH]; intros i Hi; [reflexivity |].
  simpl. rewrite Z.add_0_r, (wrap_id i Hi). f_equal.
  rewrite IH by apply wrap_is_int.
  rewrite <- seq_shift, map_map. apply map_ext. intros k.
  unfold add. rewrite wrap_add_l. f_equal. lia.
Qed.

Lemma iter_succ_int i n :
  is_int i -> Nat.iter n (fun v => add v 1) i = wrap (i + Z.of_nat n).
Proof. apply iter_add_1. Qed.

(** ** The tile grid *)

Lemma wrap_le n : - 2 ^ 63 <= n -> wrap n <= n.
Proof.
  intros H. unfold wrap.
  rewrite (Z.mod_eq (n + 2 ^ 63) (2 ^ 64)) by lia.
  pose proof (Z.div_pos (n + 2 ^ 63) (2 ^ 64) ltac:(lia) ltac:(lia)). lia.
Qed.

(** [1 << z] never exceeds 2^z: it is 2^z up to [z = 62], negative at
    [z = 63] and 0 from there on. *)
Lemma count_le_pow2 z : 0 <= z -> shl 1 z <= 2 ^ z.
Proof.
  intros Hz. unfold shl. rewrite Z.shiftl_1_l.
  apply wrap_le. pose proof (Z.pow_nonneg 2 z ltac:(lia)). lia.
Qed.

Lemma count_small z : 0 <= z <= 62 -> shl 1 z = 2 ^ z.
Proof.
  intros Hz. unfold shl. rewrite Z.shiftl_1_l. apply wrap_id.
  unfold is_int, minInt, maxInt.
  pose proof (Z.pow_nonneg 2 z ltac:(lia)).
  pose proof (Z.pow_le_mono_r 2 z 62 ltac:(lia) ltac:(lia)). lia.
Qed.

(** Up to zoom level 62 the test of line 129 is exactly "outside the
    2^z by 2^z grid". *)
Lemma offGrid_iff l tx ty z :
  0 <= z <= 62 -> count l = shl 1 z ->
  (offGrid l tx ty = false <-> 0 <= tx < 2 ^ z /\ 0 <= ty < 2 ^ z).
Proof.
  intros Hz Hc. unfold offGrid. rewrite Hc, (count_small z Hz).
  rewrite !orb_false_iff, !Z.ltb_ge, !Z.geb_leb, !Z.leb_gt. lia.
Qed.

(** The centre offset [int(float32(count)/2 - 0.5)] at the zoom levels the
    buttons allow: 0 at level 0 and 2^(z-1) - 1 from level 1 on. *)
Lemma halfCount_zoom z :
  0 <= z <= 19 ->
  halfCount (shl 1 z) = if z =? 0 then 0 else 2 ^ (z - 1) - 1.
Proof.
  intros Hz.
  assert (H : forallb (fun n => halfCount (shl 1 (Z.of_nat n)) =?
                               (if Z.of_nat n =? 0 then 0
                                else 2 ^ (Z.of_nat n - 1) - 1))
                      (seq 0 20) = true) by (vm_compute; reflexivity).
  rewrite forallb_forall in H.
  specialize (H (Z.to_nat z)). rewrite Z2Nat.id in H by lia.
  apply Z.eqb_eq, H, in_seq. lia.
Qed.

(** Beyond 24 bits of grid the [float32] subtraction rounds: at zoom level
    25 the offset is 2^24, not 2^24 - 1. *)
Example halfCount_rounds : halfCount (shl 1 25) = 2 ^ 24.
Proof. vm_compute. reflexivity. Qed.

(** The tile offsets of the first visible column for some centred and
    off-centre middles. *)
Example ceilTiles_examples :
  map (fun mid => ceilTiles mid 256) [128; 0; -128; 256; 300; -256; -300]
  = [1; 0; 0; 1; 2; -1; -1].
Proof. vm_compute. reflexivity. Qed.

(** At zoom level 2 with the centre at (0, 0) the effective centre tile is
    (1, 1). *)
Example locals_zoom2 :
  mx (locals None 1024 768 (this atZoom2)) = 1 /\
  my (locals None 1024 768 (this atZoom2)) = 1 /\
  count (locals None 1024 768 (this atZoom2)) = 4.
Proof. vm_compute. repeat split; reflexivity. Qed.

Lemma locals_count canvas wpx hpx m :
  count (locals canvas wpx hpx m) = shl 1 (zoom m).
Proof. reflexivity. Qed.

(** [locals] reads the zoom level and the centre only. *)
Lemma locals_frame canvas wpx hpx m m' :
  zoom m' = zoom m -> x m' = x m -> y m' = y m ->
  locals canvas wpx hpx m' = locals canvas wpx hpx m.
Proof. intros Hz Hx Hy. unfold locals. now rewrite Hz, Hx, Hy. Qed.

Section DrawFacts.

Variable E : Env.

Lemma fetched_app (a b : list (event E)) : fetched (a ++ b) = fetched a ++ fetched b.
Proof. apply flat_map_app. Qed.

Lemma copies_app (a b : list (event E)) : copies (a ++ b) = copies a ++ copies b.
Proof. apply flat_map_app. Qed.

Lemma errors_app (a b : list (event E)) : errors (a ++ b) = errors a ++ errors b.
Proof. apply flat_map_app. Qed.

(** What [reallocate] leaves alone, and what it does. *)
Lemma reallocate_frame wpx hpx (st : State E) :
  let st' := state_of (reallocate E wpx hpx st) in
  trace st' = trace st /\ net st' = net st /\
  w (this st') = w (this st) /\ h (this st') = h (this st) /\
  zoom (this st') = zoom (this st) /\
  x (this st') = x (this st) /\ y (this st') = y (this st).
Proof.
  unfold reallocate.
  destruct (sizeChanged (this st) wpx hpx); simpl; auto 10.
  destruct (NewNRGBA (Rect 0 0 wpx hpx)); simpl; auto 10.
Qed.

(** A tile off the grid is passed over: no fetch, no change at all. *)
Lemma drawTile_offGrid l tx ty (st : State E) :
  offGrid l tx ty = true -> drawTile E l tx ty st = Ok st.
Proof. intros H. unfold drawTile. now rewrite H. Qed.

(** A tile the body fetches lies on the grid. *)
Lemma onGrid_bounds l tx ty :
  offGrid l tx ty = false ->
  0 <= tx < count l /\ 0 <= ty < count l.
Proof.
  unfold offGrid. intros H.
  apply orb_false_iff in H as [H H4]. apply orb_false_iff in H as [H H3].
  apply orb_false_iff in H as [H1 H2].
  apply Z.ltb_ge in H1, H2. rewrite Z.geb_leb in H3, H4.
  apply Z.leb_gt in H3, H4. lia.
Qed.

(** The events one run of the body adds, and what it keeps. *)
Lemma drawTile_events l tx ty (st : State E) :
  let st' := state_of (drawTile E l tx ty st) in
  this st' = this st /\
  exists evs, trace st' = trace st ++ evs /\
    fetched evs = (if offGrid l tx ty then [] else [(tx, ty, zoom (this st))]) /\
    forall p pos sr, In (p, pos, sr) (copies evs) ->
      offGrid l tx ty = false /\ pixels (this st) = Some p /\
      pos = tilePos l tx ty /\ sr = tileRect l.
Proof.
  unfold drawTile.
  destruct (offGrid l tx ty) eqn:Hg; simpl.
  { split; [reflexivity |]. exists []. rewrite app_nil_r. simpl. intuition. }
  destruct (getTile E (net st) tx ty (zoom (this st))) as [[src | err] net'].
  - simpl. destruct (pixels (this st)) as [p |] eqn:Hp; simpl.
    + destruct (nth_error (heap st) p) as [dst |]; simpl.
      * split; [reflexivity |].
        exists [Fetch tx ty (zoom (this st)); Copied p (tilePos l tx ty) (tileRect l)].
        rewrite <- app_assoc. simpl. split; [reflexivity |]. split; [reflexivity |].
        intros p' pos sr [H | []]. inversion H; subst. auto.
      * split; [reflexivity |]. exists [Fetch tx ty (zoom (this st))].
        simpl. split; [reflexivity |]. split; [reflexivity |]. intros ? ? ? [].
    + split; [reflexivity |]. exists [Fetch tx ty (zoom (this st))].
      simpl. split; [reflexivity |]. split; [reflexivity |]. intros ? ? ? [].
  - simpl. split; [reflexivity |].
    exists [Fetch tx ty (zoom (this st)); LogError err].
    rewrite <- app_assoc. simpl. split; [reflexivity |]. split; [reflexivity |].
    intros ? ? ? [].
Qed.

Lemma drawTile_fetches_on_grid l st0 tx ty st :
  fetches_on_grid l st0 st ->
  fetches_on_grid l st0 (state_of (drawTile E l tx ty st)).
Proof.
  intros [Hthis (evs & Htr & Hall)].
  destruct (drawTile_events l tx ty st) as [Hthis' (evs' & Htr' & Hf & _)].
  split; [congruence |].
  exists (evs ++ evs'). split.
  - rewrite Htr', Htr. now rewrite app_assoc.
  - rewrite fetched_app. apply Forall_app. split; [exact Hall |].
    rewrite Hf. destruct (offGrid l tx ty) eqn:Hg; [constructor |].
    constructor; [| constructor].
    split; [now apply onGrid_bounds | congruence].
Qed.

Lemma drawTiles_fetches_on_grid fuel l wpx hpx (st : State E) :
  fetches_on_grid l st (state_of (drawTiles E fuel l wpx hpx st)).
Proof.
  unfold drawTiles.
  apply for_loop_inv.
  - intros tx s Hs. apply for_loop_inv; [| exact Hs].
    intros ty s' Hs'. now apply drawTile_fetches_on_grid.
  - split; [reflexivity |]. exists []. rewrite app_nil_r. split; [reflexivity | constructor].
Qed.

(** C1: whatever the state, the canvas, the requested size and the loop
    budget, and however the call ends, a call of [draw] at a zoom level
    [z >= 0] fetches only tiles [(tx, ty)] with [0 <= tx < 2^z] and
    [0 <= ty < 2^z], each at zoom [z]; and a candidate outside that range
    on either axis is passed over by the loop body with no fetch and no
    other effect (coordinates are not wrapped onto the grid). *)
Theorem draw_fetches_within_grid :
  forall (fuel : nat) (canvas : option float32) (wpx hpx : Z) (st : State E),
    0 <= zoom (this st) ->
    (exists evs,
        trace (state_of (draw E fuel canvas wpx hpx st)) = trace st ++ evs /\
        forall tx ty z, In (tx, ty, z) (fetched evs) ->
          0 <= tx < 2 ^ zoom (this st) /\ 0 <= ty < 2 ^ zoom (this st) /\
          z = zoom (this st)) /\
    (forall tx ty (s : State E),
        ~ (0 <= tx < 2 ^ zoom (this st) /\ 0 <= ty < 2 ^ zoom (this st)) ->
        drawTile E (locals canvas wpx hpx (this st)) tx ty s = Ok s).
Proof.
  intros fuel canvas wpx hpx st Hz.
  pose proof (count_le_pow2 (zoom (this st)) Hz) as Hc.
  split.
  - unfold draw.
    pose proof (reallocate_frame wpx hpx st) as Hr. cbv zeta in Hr.
    destruct (reallocate E wpx hpx st) as [st1 | st1 | st1]; simpl in Hr;
      destruct Hr as (Htr & _ & _ & _ & Hz1 & Hx1 & Hy1);
      try (exists []; rewrite app_nil_r; split; [exact Htr | intros ? ? ? []]).
    destruct (zoom (this st1) <? 0) eqn:Hneg.
    { exists []. rewrite app_nil_r. split; [exact Htr | intros ? ? ? []]. }
    destruct (drawTiles_fetches_on_grid fuel (locals canvas wpx hpx (this st1))
                wpx hpx st1) as [_ (evs & Hevs & Hall)].
    exists evs. split; [now rewrite Hevs, Htr |].
    intros tx ty z Hin. rewrite Forall_forall in Hall.
    specialize (Hall _ Hin). cbv beta iota zeta in Hall.
    rewrite locals_count, Hz1 in Hall. lia.
  - intros tx ty s Hout. apply drawTile_offGrid.
    unfold offGrid. rewrite locals_count.
    destruct (tx <? 0) eqn:H1; [reflexivity |].
    destruct (ty <? 0) eqn:H2; [reflexivity |].
    destruct (tx >=? shl 1 (zoom (this st))) eqn:H3; [reflexivity |].
    destruct (ty >=? shl 1 (zoom (this st))) eqn:H4; [reflexivity |].
    exfalso. apply Hout.
    apply Z.ltb_ge in H1, H2.
    rewrite Z.geb_leb in H3, H4. apply Z.leb_gt in H3, H4. lia.
Qed.

End DrawFacts.

Lemma draw_fetches_within_grid_witness :
  (exists evs,
      trace (state_of (draw redServer 10 None 1024 768 atZoom2))
        = trace atZoom2 ++ evs /\
      forall tx ty z, In (tx, ty, z) (fetched evs) ->
        0 <= tx < 2 ^ zoom (this atZoom2) /\ 0 <= ty < 2 ^ zoom (this atZoom2) /\
        z = zoom (this atZoom2)) /\
  (forall tx ty (s : State redServer),
      ~ (0 <= tx < 2 ^ zoom (this atZoom2) /\ 0 <= ty < 2 ^ zoom (this atZoom2)) ->
      drawTile redServer (locals None 1024 768 (this atZoom2)) tx ty s = Ok s).
Proof.
  apply (draw_fetches_within_grid redServer 10 None 1024 768 atZoom2).
  simpl. lia.
Defined.

(** ** The loops of [draw] inside the operating range *)

Lemma canvasScale_pos canvas : 1 <= canvasScale canvas.
Proof.
  unfold canvasScale. destruct canvas as [f |]; [| lia].
  cbv zeta. destruct (to_int f <? 1) eqn:H; [lia | apply Z.ltb_ge in H; lia].
Qed.

Lemma locals_tilePx canvas wpx hpx m :
  512 * canvasScale canvas <= maxInt ->
  tilePx (locals canvas wpx hpx m) = 256 * canvasScale canvas.
Proof.
  intros H. pose proof (canvasScale_pos canvas) as Hs.
  unfold locals; cbn [tilePx]. unfold maxInt in H.
  destruct canvas as [f |].
  - unfold mul, tileSize. apply wrap_id. unfold is_int, minInt, maxInt. lia.
  - unfold canvasScale, tileSize. lia.
Qed.

Lemma locals_first_is_int canvas wpx hpx m :
  is_int (firstTileX (locals canvas wpx hpx m)) /\
  is_int (firstTileY (locals canvas wpx hpx m)).
Proof. split; apply wrap_is_int. Qed.

(** The loop test holds exactly for the first [steps] values of the loop
    variable. *)
Lemma inView_steps l first size :
  is_int first -> 0 < tilePx l -> 0 <= size -> size + 2 * tilePx l <= maxInt ->
  Forall (fun j => inView l first size j = true) (indices first (steps l size)) /\
  inView l first size (Nat.iter (steps l size) (fun v => add v 1) first) = false.
Proof.
  intros Hf Hts Hsz Hmax. set (ts := tilePx l) in *.
  assert (Hsteps : steps l size = Z.to_nat ((size + ts) / ts + 1)).
  { unfold steps. fold ts. destruct (size + ts <? 0) eqn:E; [apply Z.ltb_lt in E; lia | reflexivity]. }
  pose proof (Z.div_pos (size + ts) ts ltac:(lia) ltac:(lia)) as HK.
  pose proof (Z.mul_div_le (size + ts) ts ltac:(lia)) as Hlo.
  pose proof (Z.mul_succ_div_gt (size + ts) ts ltac:(lia)) as Hhi.
  set (K := (size + ts) / ts) in *.
  assert (Hin : forall k, 0 <= k <= K + 1 ->
            inView l first size (wrap (first + k)) = (k <=? K)).
  { intros k Hk. unfold inView. fold ts. unfold sub, mul, add.
    rewrite wrap_sub_l. replace (first + k - first) with k by lia.
    unfold maxInt in Hmax.
    assert (Hkts : 0 <= k * ts <= (K + 1) * ts) by nia.
    rewrite (wrap_id k) by (unfold is_int, minInt, maxInt; nia).
    rewrite (wrap_id (k * ts)) by (unfold is_int, minInt, maxInt; nia).
    rewrite (wrap_id (size + ts)) by (unfold is_int, minInt, maxInt; lia).
    destruct (k <=? K) eqn:E.
    - apply Z.leb_le in E. apply Z.leb_le. nia.
    - apply Z.leb_gt in E. apply Z.leb_gt. assert (k = K + 1) by lia. subst k. nia. }
  split.
  - rewrite indices_iter by exact Hf. apply Forall_forall. intros j Hj.
    apply in_map_iff in Hj as (k & <- & Hk). apply in_seq in Hk.
    rewrite Hin by lia. apply Z.leb_le. lia.
  - rewrite iter_succ_int by exact Hf. rewrite Hsteps, Z2Nat.id by lia.
    rewrite Hin by lia. apply Z.leb_gt. lia.
Qed.

Section Unrolled.

Variable E : Env.

(** Inside the operating range, and with budget enough, the nested loops
    visit every column and, in each, every row. *)
Lemma drawTiles_unroll fuel canvas wpx hpx m (st : State E) :
  in_range canvas wpx hpx ->
  let l := locals canvas wpx hpx m in
  (enough l wpx hpx <= fuel)%nat ->
  drawTiles E fuel l wpx hpx st =
  for_each (fun tx => for_each (fun ty => drawTile E l tx ty) (rows l hpx))
           (columns l wpx) st.
Proof.
  intros (Hw & Hh & Hwm & Hhm) l Hfuel.
  pose proof (canvasScale_pos canvas) as Hs.
  assert (Hts : tilePx l = 256 * canvasScale canvas).
  { apply locals_tilePx. lia. }
  destruct (locals_first_is_int canvas wpx hpx m) as [Hfx Hfy]. fold l in Hfx, Hfy.
  destruct (inView_steps l (firstTileX l) wpx Hfx) as [Hx1 Hx2]; try lia.
  destruct (inView_steps l (firstTileY l) hpx Hfy) as [Hy1 Hy2]; try lia.
  unfold enough in Hfuel. unfold drawTiles.
  rewrite (for_loop_unroll _ _ (steps l wpx)); [| lia | exact Hx1 | exact Hx2].
  apply for_each_ext. intros tx s _.
  apply (for_loop_unroll _ _ (steps l hpx)); [lia | exact Hy1 | exact Hy2].
Qed.

End Unrolled.

(** ** Fetch failures *)

Section Failures.

Variable E : Env.

(** Every fetch is answered by an error. *)
Hypothesis all_fail :
  forall ts tx ty z, exists err, fst (getTile E ts tx ty z) = inr err.

Lemma only_failures_refl (st : State E) : only_failures st st [].
Proof.
  split; [reflexivity |]. split; [reflexivity |].
  exists []. now rewrite app_nil_r.
Qed.

Lemma only_failures_trans (st st1 st2 : State E) t1 t2 :
  only_failures st st1 t1 -> only_failures st1 st2 t2 ->
  only_failures st st2 (t1 ++ t2).
Proof.
  intros (Ht1 & Hh1 & evs1 & Htr1 & Hf1 & Hc1 & He1)
         (Ht2 & Hh2 & evs2 & Htr2 & Hf2 & Hc2 & He2).
  split; [congruence |]. split; [congruence |].
  exists (evs1 ++ evs2). rewrite Htr2, Htr1, <- app_assoc.
  rewrite fetched_app, copies_app, errors_app, !length_app, Hf1, Hf2, Hc1, Hc2.
  auto.
Qed.

(** One tile: passed over off the grid; fetched, logged and skipped on
    it. *)
Lemma drawTile_failure l tx ty (st : State E) :
  exists st', drawTile E l tx ty st = Ok st' /\
    only_failures st st'
      (if offGrid l tx ty then [] else [(tx, ty, zoom (this st))]).
Proof.
  unfold drawTile. destruct (offGrid l tx ty).
  - exists st. split; [reflexivity | apply only_failures_refl].
  - destruct (all_fail (net st) tx ty (zoom (this st))) as [err Herr].
    destruct (getTile E (net st) tx ty (zoom (this st))) as [r net'].
    simpl in Herr. subst r. eexists. split; [reflexivity |].
    split; [reflexivity |]. split; [reflexivity |].
    exists [Fetch tx ty (zoom (this st)); LogError err].
    simpl. rewrite <- app_assoc. auto.
Qed.

(** One column. *)
Lemma row_failures l tx ys :
  forall st : State E,
  exists st', for_each (fun ty => drawTile E l tx ty) ys st = Ok st' /\
    only_failures st st'
      (map (fun ty => (tx, ty, zoom (this st)))
           (filter (fun ty => negb (offGrid l tx ty)) ys)).
Proof.
  induction ys as [| ty ys IH]; intros st; simpl.
  - exists st. split; [reflexivity | apply only_failures_refl].
  - destruct (drawTile_failure l tx ty st) as (st1 & -> & H1).
    destruct (IH st1) as (st2 & -> & H2).
    exists st2. split; [reflexivity |].
    assert (Hz : zoom (this st1) = zoom (this st)) by (destruct H1 as [-> _]; reflexivity).
    rewrite Hz in H2.
    pose proof (only_failures_trans _ _ _ _ _ H1 H2) as H.
    destruct (offGrid l tx ty); exact H.
Qed.

(** All columns: every candidate on the grid is fetched, in scanning
    order. *)
Lemma grid_failures l xs ys :
  forall st : State E,
  exists st',
    for_each (fun tx => for_each (fun ty => drawTile E l tx ty) ys) xs st = Ok st' /\
    only_failures st st' (gridTiles l (zoom (this st)) xs ys).
Proof.
  induction xs as [| tx xs IH]; intros st; simpl.
  - exists st. split; [reflexivity | apply only_failures_refl].
  - destruct (row_failures l tx ys st) as (st1 & -> & H1).
    destruct (IH st1) as (st2 & -> & H2).
    exists st2. split; [reflexivity |].
    assert (Hz : zoom (this st1) = zoom (this st)) by (destruct H1 as [-> _]; reflexivity).
    rewrite Hz in H2.
    exact (only_failures_trans _ _ _ _ _ H1 H2).
Qed.

End Failures.

Lemma Rect_nonneg wpx hpx :
  0 <= wpx -> 0 <= hpx ->
  Rect 0 0 wpx hpx = {| Min := Pt 0 0; Max := Pt wpx hpx |}.
Proof.
  intros Hw Hh. unfold Rect.
  destruct (wpx <? 0) eqn:E1; [apply Z.ltb_lt in E1; lia |].
  destruct (hpx <? 0) eqn:E2; [apply Z.ltb_lt in E2; lia |].
  reflexivity.
Qed.

Lemma NewNRGBA_allocatable wpx hpx :
  allocatable wpx hpx ->
  NewNRGBA (Rect 0 0 wpx hpx) = Some (blank (Rect 0 0 wpx hpx)) /\
  Dx (Rect 0 0 wpx hpx) = wpx /\ Dy (Rect 0 0 wpx hpx) = hpx.
Proof.
  intros (Hw & Hh & Hm). unfold maxInt in Hm, Hh.
  rewrite Rect_nonneg by lia. unfold NewNRGBA, Dx, Dy, sub. simpl.
  rewrite !Z.sub_0_r.
  rewrite !wrap_id by (unfold is_int, minInt, maxInt; lia).
  split; [| auto].
  unfold mul3NonNeg.
  destruct (4 <? 0) eqn:E0; [discriminate |].
  destruct (wpx <? 0) eqn:E1; [apply Z.ltb_lt in E1; lia |].
  destruct (hpx <? 0) eqn:E2; [apply Z.ltb_lt in E2; lia |].
  simpl orb. cbv iota.
  destruct (2 ^ 64 <=? 4 * wpx) eqn:E3; [apply Z.leb_le in E3; lia |].
  destruct (2 ^ 64 <=? 4 * wpx * hpx) eqn:E4; [apply Z.leb_le in E4; lia |].
  destruct (2 ^ 63 <=? 4 * wpx * hpx) eqn:E5; [apply Z.leb_le in E5; lia |].
  destruct (4 * wpx * hpx <? 0) eqn:E6; [apply Z.ltb_lt in E6; nia | reflexivity].
Qed.

Section Containment.

Variable E : Env.

Lemma returned_new (m : Map) (hp : list NRGBA) (b : NRGBA) (ts : TileSource E) tr :
  pixels m = Some (length hp) ->
  returned (mkState m (hp ++ [b]) ts tr) = Some b.
Proof.
  intros H. unfold returned. simpl. rewrite H.
  rewrite nth_error_app2 by lia. now rewrite Nat.sub_diag.
Qed.

(** C5 (amended): inside the operating range, a call of [draw] in which
    every fetch fails returns normally.  When the requested size differs
    from the stored [m.w], [m.h] the image returned is a newly allocated,
    blank buffer of the requested size; otherwise it is whatever [m.pixels]
    already was, untouched.  Every candidate tile on the grid is still
    fetched, in scanning order; each failure is logged and the tile
    skipped; nothing is copied and no buffer that existed is changed. *)
Theorem draw_contains_fetch_failures :
  forall (fuel : nat) (canvas : option float32) (wpx hpx : Z) (st : State E),
    (forall ts tx ty z, exists err, fst (getTile E ts tx ty z) = inr err) ->
    in_range canvas wpx hpx ->
    allocatable wpx hpx ->
    0 <= zoom (this st) ->
    (enough (locals canvas wpx hpx (this st)) wpx hpx <= fuel)%nat ->
    exists st',
      draw E fuel canvas wpx hpx st = Ok st' /\
      (sizeChanged (this st) wpx hpx = true ->
         returned st' = Some (blank (Rect 0 0 wpx hpx)) /\
         Dx (Rect 0 0 wpx hpx) = wpx /\ Dy (Rect 0 0 wpx hpx) = hpx /\
         heap st' = heap st ++ [blank (Rect 0 0 wpx hpx)]) /\
      (sizeChanged (this st) wpx hpx = false ->
         this st' = this st /\ heap st' = heap st) /\
      exists evs,
        trace st' = trace st ++ evs /\
        fetched evs =
          gridTiles (locals canvas wpx hpx (this st)) (zoom (this st))
            (columns (locals canvas wpx hpx (this st)) wpx)
            (rows (locals canvas wpx hpx (this st)) hpx) /\
        copies evs = [] /\
        length (errors evs) = length (fetched evs).
Proof.
  intros fuel canvas wpx hpx st Hfail Hrange Halloc Hz Hfuel.
  destruct (NewNRGBA_allocatable wpx hpx Halloc) as (Hnew & Hdx & Hdy).
  set (l := locals canvas wpx hpx (this st)) in *.
  assert (Hrun : forall st1 : State E,
            zoom (this st1) = zoom (this st) -> x (this st1) = x (this st) ->
            y (this st1) = y (this st) ->
            exists st',
              (if zoom (this st1) <? 0 then Panic st1
               else drawTiles E fuel (locals canvas wpx hpx (this st1)) wpx hpx st1)
              = Ok st' /\
              only_failures st1 st'
                (gridTiles l (zoom (this st)) (columns l wpx) (rows l hpx))).
  { intros st1 Hz1 Hx1 Hy1.
    rewrite (locals_frame canvas wpx hpx (this st) (this st1) Hz1 Hx1 Hy1). fold l.
    destruct (zoom (this st1) <? 0) eqn:Hneg; [apply Z.ltb_lt in Hneg; lia |].
    unfold l. rewrite drawTiles_unroll by assumption. fold l.
    destruct (grid_failures E Hfail l (columns l wpx) (rows l hpx) st1)
      as (st' & Hst' & Hof).
    exists st'. split; [exact Hst' | now rewrite <- Hz1]. }
  unfold draw, reallocate.
  destruct (sizeChanged (this st) wpx hpx) eqn:Hchg.
  - rewrite Hnew. cbv beta iota zeta.
    match goal with |- context [Panic ?s] => set (st1 := s) end.
    destruct (Hrun st1) as (st' & -> & Hthis & Hheap & evs & Htr & Hf & Hc & He);
      try reflexivity.
    exists st'. split; [reflexivity |]. split; [| split].
    + intros _. split; [| auto].
      unfold returned. rewrite Hthis, Hheap. apply (returned_new (this st1)). reflexivity.
    + discriminate.
    + exists evs. rewrite Hf. auto.
  - destruct (Hrun st) as (st' & -> & Hthis & Hheap & evs & Htr & Hf & Hc & He);
      try reflexivity.
    exists st'. split; [reflexivity |]. split; [discriminate | split].
    + auto.
    + exists evs. rewrite Hf. auto.
Qed.

End Containment.

Lemma draw_contains_fetch_failures_witness :
  exists st',
    draw offline 5 None 512 512 (fresh offline tt) = Ok st' /\
    returned st' = Some (blank (Rect 0 0 512 512)) /\
    fetched (trace st') = [(0, 0, 0)] /\
    copies (trace st') = [] /\
    length (errors (trace st')) = 1%nat.
Proof.
  destruct (draw_contains_fetch_failures offline 5 None 512 512 (fresh offline tt))
    as (st' & Hrun & Hnew & _ & evs & Htr & Hf & Hc & He).
  - intros ts tx ty z. exists tt. reflexivity.
  - unfold in_range, maxInt. simpl. lia.
  - unfold allocatable, maxInt. lia.
  - simpl. lia.
  - vm_compute. lia.
  - exists st'. split; [exact Hrun |].
    simpl in Htr. rewrite Htr, He, Hf, Hc.
    split; [apply Hnew; reflexivity |].
    split; [| split]; vm_compute; reflexivity.
Defined.

(** C5 as stated fails where the requested size equals the stored one: on
    a new widget a request for 0 by 0 pixels returns the nil [m.pixels],
    and after a 512 by 512 call the same request returns the 512 by 512
    buffer. *)
Lemma draw_returns_stale_buffer :
  (exists st',
      draw offline 5 None 0 0 (fresh offline tt) = Ok st' /\
      returned st' = None) /\
  (exists st1 st2 b,
      draw offline 5 None 512 512 (fresh offline tt) = Ok st1 /\
      draw offline 5 None 0 0 st1 = Ok st2 /\
      returned st2 = Some b /\
      Dx (NRect b) = 512 /\ Dy (NRect b) = 512 /\ Dx (NRect b) <> 0).
Proof.
  split.
  - eexists. split; [vm_compute; reflexivity | reflexivity].
  - do 3 eexists.
    split; [vm_compute; reflexivity |].
    split; [vm_compute; reflexivity |].
    split; [vm_compute; reflexivity |].
    vm_compute. repeat split; discriminate.
Qed.

(** ** The whole world in one tile *)

Section WorldView.

Variable E : Env.

Lemma locals_worldView canvas m :
  canvasScale canvas = 1 -> zoom m = 0 -> x m = 0 -> y m = 0 ->
  locals canvas 512 512 m = worldView.
Proof.
  intros Hs Hz Hx Hy. unfold locals. rewrite Hs, Hz, Hx, Hy.
  destruct canvas; vm_compute; reflexivity.
Qed.

(** The loops of the scenario: of the sixteen candidates only (0, 0) is on
    the grid. *)
Lemma drawTiles_worldView fuel (st : State E) :
  (5 <= fuel)%nat ->
  in_range None 512 512 ->
  drawTiles E fuel worldView 512 512 st = drawTile E worldView 0 0 st.
Proof.
  intros Hfuel Hrange.
  pose proof (drawTiles_unroll E fuel None 512 512 NewMap st Hrange) as H.
  cbv zeta in H.
  rewrite (locals_worldView None NewMap) in H by reflexivity.
  rewrite H by (vm_compute; lia). clear H.
  change (columns worldView 512) with [-1; 0; 1; 2].
  change (rows worldView 512) with [-1; 0; 1; 2].
  cbn [for_each].
  repeat (rewrite drawTile_offGrid by reflexivity; cbv beta iota).
  destruct (drawTile E worldView 0 0 st) as [s | s | s]; reflexivity.
Qed.

Lemma store_last (hp : list NRGBA) (b b' : NRGBA) :
  store (hp ++ [b]) (length hp) b' = hp ++ [b'].
Proof. induction hp as [| b0 hp IH]; simpl; [reflexivity | now rewrite IH]. Qed.

Lemma nth_error_last (hp : list NRGBA) (b : NRGBA) :
  nth_error (hp ++ [b]) (length hp) = Some b.
Proof. rewrite nth_error_app2 by lia. now rewrite Nat.sub_diag. Qed.

(** The body of the loop for tile (0, 0) of the scenario. *)
Lemma drawTile_worldView (st : State E) :
  zoom (this st) = 0 ->
  exists evs,
    trace (state_of (drawTile E worldView 0 0 st)) = trace st ++ evs /\
    fetched evs = [(0, 0, 0)] /\
    (forall p pos sr, In (p, pos, sr) (copies evs) ->
       pos = Pt 128 128 /\ sr = Rect 0 0 256 256) /\
    (forall src net' p dst,
       getTile E (net st) 0 0 0 = (inl src, net') ->
       pixels (this st) = Some p -> nth_error (heap st) p = Some dst ->
       drawTile E worldView 0 0 st =
         Ok (mkState (this st)
               (store (heap st) p (draw.Copy dst (Pt 128 128) src (Rect 0 0 256 256)))
               net' (trace st ++ evs)) /\
       copies evs = [(p, Pt 128 128, Rect 0 0 256 256)]).
Proof.
  intros Hz. unfold drawTile, log. change (offGrid worldView 0 0) with false.
  cbv iota. rewrite Hz.
  unfold scaledTile. change (1 <? scale worldView) with false.
  change (tilePos worldView 0 0) with (Pt 128 128).
  change (tileRect worldView) with (Rect 0 0 256 256).
  destruct (getTile E (net st) 0 0 0) as [[src | err] net'];
    cbn [this heap net trace].
  - destruct (pixels (this st)) as [p |] eqn:Hp.
    + destruct (nth_error (heap st) p) as [dst |] eqn:Hd.
      * exists [Fetch 0 0 0; Copied p (Pt 128 128) (Rect 0 0 256 256)].
        cbn [state_of trace]. rewrite <- app_assoc. cbn [app].
        split; [reflexivity |]. split; [reflexivity |]. split.
        -- intros p' pos sr [H | []]. inversion H. auto.
        -- intros src' net'' p' dst' H1 H2 H3.
           inversion H1; subst. inversion H2; subst.
           rewrite Hd in H3. inversion H3; subst.
           split; reflexivity.
      * exists [Fetch 0 0 0]. cbn [state_of trace].
        split; [reflexivity |]. split; [reflexivity |]. split.
        -- intros ? ? ? [].
        -- intros ? ? ? ? _ H2 H3. inversion H2; subst. congruence.
    + exists [Fetch 0 0 0]. cbn [state_of trace].
      split; [reflexivity |]. split; [reflexivity |]. split.
      * intros ? ? ? [].
      * intros ? ? ? ? _ H2. discriminate.
  - exists [Fetch 0 0 0; LogError err].
    cbn [state_of trace]. rewrite <- app_assoc. cbn [app].
    split; [reflexivity |]. split; [reflexivity |]. split.
    + intros ? ? ? [].
    + intros ? ? ? ? H. discriminate.
Qed.

(** C8: with a 512 by 512 output, zoom level 0, centre (0, 0) and scale 1,
    [draw] fetches exactly one tile, (0, 0) at zoom 0, whatever the tile
    source answers; its destination rectangle is the 256 by 256 square at
    (128, 128), the middle of the buffer; every copy made is made there,
    and when the fetch succeeds the call returns the new 512 by 512 buffer
    with that one tile copied into it at (128, 128). *)
Theorem draw_world_in_one_tile :
  forall (fuel : nat) (canvas : option float32) (st : State E),
    (5 <= fuel)%nat ->
    canvasScale canvas = 1 ->
    zoom (this st) = 0 -> x (this st) = 0 -> y (this st) = 0 ->
    exists evs,
      trace (state_of (draw E fuel canvas 512 512 st)) = trace st ++ evs /\
      fetched evs = [(0, 0, 0)] /\
      destRect (locals canvas 512 512 (this st)) 0 0
        = {| Min := Pt 128 128; Max := Pt 384 384 |} /\
      (forall p pos sr, In (p, pos, sr) (copies evs) ->
         pos = Pt 128 128 /\ sr = Rect 0 0 256 256) /\
      (forall src net',
         getTile E (net st) 0 0 0 = (inl src, net') ->
         sizeChanged (this st) 512 512 = true ->
         exists st',
           draw E fuel canvas 512 512 st = Ok st' /\
           copies evs = [(length (heap st), Pt 128 128, Rect 0 0 256 256)] /\
           returned st' =
             Some (draw.Copy (blank (Rect 0 0 512 512)) (Pt 128 128) src
                     (Rect 0 0 256 256))).
Proof.
  intros fuel canvas st Hfuel Hs Hz Hx Hy.
  assert (Hrange : in_range None 512 512) by (unfold in_range, maxInt; simpl; lia).
  destruct (NewNRGBA_allocatable 512 512) as (Hnew & _ & _);
    [unfold allocatable, maxInt; lia |].
  rewrite (locals_worldView canvas (this st) Hs Hz Hx Hy).
  unfold draw, reallocate.
  destruct (sizeChanged (this st) 512 512) eqn:Hchg.
  - rewrite Hnew. cbv beta iota zeta.
    match goal with |- context [Panic ?s] => set (st1 := s) end.
    change (zoom (this st1)) with (zoom (this st)). rewrite Hz.
    change (0 <? 0) with false. cbv iota.
    rewrite (locals_worldView canvas (this st1) Hs Hz Hx Hy).
    rewrite drawTiles_worldView by assumption.
    destruct (drawTile_worldView st1 Hz) as (evs & Htr & Hf & Hc & Hok).
    exists evs. split; [exact Htr |]. split; [exact Hf |].
    split; [reflexivity |]. split; [exact Hc |].
    intros src net' Hget _.
    destruct (Hok src net' (length (heap st)) (blank (Rect 0 0 512 512)) Hget
                eq_refl (nth_error_last _ _)) as [Hrun Hcopies].
    eexists. split; [exact Hrun |]. split; [exact Hcopies |].
    unfold returned. cbn [this heap pixels st1].
    rewrite store_last. apply nth_error_last.
  - cbv beta iota zeta. rewrite Hz. change (0 <? 0) with false. cbv iota.
    rewrite (locals_worldView canvas (this st) Hs Hz Hx Hy).
    rewrite drawTiles_worldView by assumption.
    destruct (drawTile_worldView st Hz) as (evs & Htr & Hf & Hc & _).
    exists evs. split; [exact Htr |]. split; [exact Hf |].
    split; [reflexivity |]. split; [exact Hc |].
    intros ? ? _ H. discriminate.
Qed.

End WorldView.

Lemma draw_world_in_one_tile_witness :
  exists evs,
    trace (state_of (draw redServer 5 None 512 512 (fresh redServer tt))) = evs /\
    fetched evs = [(0, 0, 0)] /\
    destRect (locals None 512 512 NewMap) 0 0
      = {| Min := Pt 128 128; Max := Pt 384 384 |} /\
    copies evs = [(0%nat, Pt 128 128, Rect 0 0 256 256)].
Proof.
  destruct (draw_world_in_one_tile redServer 5 None (fresh redServer tt))
    as (evs & Htr & Hf & Hd & _ & Hok); try reflexivity.
  exists evs. split; [exact Htr |]. split; [exact Hf |]. split; [exact Hd |].
  destruct (Hok redTile tt eq_refl eq_refl) as (st' & _ & Hc & _). exact Hc.
Defined.

(** ** The pixel buffer across calls *)

Section Buffer.

Variable E : Env.

(** The loops never touch the widget's fields. *)
Lemma drawTiles_this fuel l wpx hpx (st : State E) :
  this (state_of (drawTiles E fuel l wpx hpx st)) = this st.
Proof.
  unfold drawTiles.
  apply (for_loop_inv (fun s => this s = this st)); [| reflexivity].
  intros tx s Hs. apply (for_loop_inv (fun s => this s = this st)); [| exact Hs].
  intros ty s' Hs'. destruct (drawTile_events E l tx ty s') as [H _]. congruence.
Qed.

(** No call of [draw] changes [m.w] or [m.h], however it ends. *)
Lemma draw_keeps_stored_size fuel canvas wpx hpx (st : State E) :
  w (this (state_of (draw E fuel canvas wpx hpx st))) = w (this st) /\
  h (this (state_of (draw E fuel canvas wpx hpx st))) = h (this st).
Proof.
  unfold draw.
  pose proof (reallocate_frame E wpx hpx st) as Hr. cbv zeta in Hr.
  destruct (reallocate E wpx hpx st) as [st1 | st1 | st1]; simpl in Hr;
    destruct Hr as (_ & _ & Hw & Hh & _); simpl; auto.
  destruct (zoom (this st1) <? 0); simpl; auto.
  rewrite drawTiles_this. auto.
Qed.

(** A call that returns normally with a size other than the stored one
    returns a buffer that did not exist before. *)
Lemma draw_allocates fuel canvas wpx hpx (st st' : State E) :
  sizeChanged (this st) wpx hpx = true ->
  draw E fuel canvas wpx hpx st = Ok st' ->
  pixels (this st') = Some (length (heap st)).
Proof.
  intros Hchg. unfold draw, reallocate. rewrite Hchg. cbv zeta.
  destruct (NewNRGBA (Rect 0 0 wpx hpx)) as [buf |]; [| discriminate].
  match goal with |- context [Panic ?s] => set (st1 := s) end.
  destruct (zoom (this st1) <? 0); [discriminate |].
  intros Hrun.
  pose proof (drawTiles_this fuel (locals canvas wpx hpx (this st1)) wpx hpx st1) as H.
  rewrite Hrun in H. simpl in H. now rewrite H.
Qed.

(** On a widget made by [NewMap] every call with a size other than 0 by 0
    allocates, the second of two calls with one size included. *)
Lemma second_draw_allocates fuel canvas wpx hpx (st st1 st2 : State E) :
  w (this st) = 0 -> h (this st) = 0 ->
  wpx <> 0 \/ hpx <> 0 ->
  draw E fuel canvas wpx hpx st = Ok st1 ->
  draw E fuel canvas wpx hpx st1 = Ok st2 ->
  pixels (this st1) = Some (length (heap st)) /\
  pixels (this st2) = Some (length (heap st1)) /\
  sizeChanged (this st1) wpx hpx = true.
Proof.
  intros Hw Hh Hne H1 H2.
  assert (Hc : forall m, w m = 0 -> h m = 0 -> sizeChanged m wpx hpx = true).
  { intros m Hmw Hmh. unfold sizeChanged. rewrite Hmw, Hmh.
    destruct (0 =? wpx) eqn:E1; [| reflexivity].
    destruct (0 =? hpx) eqn:E2; [| reflexivity].
    apply Z.eqb_eq in E1, E2. lia. }
  destruct (draw_keeps_stored_size fuel canvas wpx hpx st) as [Hw1 Hh1].
  rewrite H1 in Hw1, Hh1. simpl in Hw1, Hh1.
  assert (Hc1 : sizeChanged (this st1) wpx hpx = true) by (apply Hc; congruence).
  split; [apply (draw_allocates fuel canvas wpx hpx); auto |].
  split; [apply (draw_allocates fuel canvas wpx hpx); auto | exact Hc1].
Qed.

End Buffer.

(** C2, the code at the failing input: two calls of [draw] for 512 by 512
    pixels on a new widget.  The first allocates the buffer at address 0
    and leaves [m.w = m.h = 0]; the second, with the same size, allocates
    another at address 1 and returns that one, a blank buffer with only the
    second call's tile in it. *)
Theorem draw_twice_same_size_allocates_twice :
  let r1 := draw redServer 5 None 512 512 (fresh redServer tt) in
  let r2 := draw redServer 5 None 512 512 (state_of r1) in
  returns r1 = true /\ returns r2 = true /\
  pixels (this (state_of r1)) = Some 0%nat /\
  w (this (state_of r1)) = 0 /\ h (this (state_of r1)) = 0 /\
  sizeChanged (this (state_of r1)) 512 512 = true /\
  pixels (this (state_of r2)) = Some 1%nat /\
  length (heap (state_of r2)) = 2%nat /\
  pixels (this (state_of r2)) <> pixels (this (state_of r1)).
Proof.
  cbv zeta. repeat split; try (vm_compute; reflexivity).
  vm_compute. discriminate.
Qed.

(** ** Compositing a tile *)

Ltac wrap_lia :=
  unfold add, sub, wrap in *; Z.div_mod_to_equations; lia.

Lemma PtIn_spec px py r :
  inside px py r <->
  X (Min r) <= px < X (Max r) /\ Y (Min r) <= py < Y (Max r).
Proof.
  unfold inside, PtIn. simpl.
  rewrite !andb_true_iff, !Z.leb_le, !Z.ltb_lt. lia.
Qed.

Lemma Empty_spec r :
  Empty r = true <-> X (Max r) <= X (Min r) \/ Y (Max r) <= Y (Min r).
Proof. unfold Empty. rewrite orb_true_iff, !Z.leb_le. reflexivity. Qed.

Lemma inside_Empty px py r : Empty r = true -> ~ inside px py r.
Proof. rewrite Empty_spec, PtIn_spec. lia. Qed.

Lemma inside_Intersect px py r s :
  inside px py (Intersect r s) <-> inside px py r /\ inside px py s.
Proof.
  unfold Intersect.
  match goal with |- context [Empty ?r'] => destruct (Empty r') eqn:He end.
  - apply Empty_spec in He. simpl in He.
    rewrite !PtIn_spec. simpl. lia.
  - rewrite !PtIn_spec. simpl. lia.
Qed.

Lemma tileRect_nonneg l :
  0 <= tilePx l -> tileRect l = {| Min := Pt 0 0; Max := Pt (tilePx l) (tilePx l) |}.
Proof. intros H. unfold tileRect. now apply Rect_nonneg. Qed.

Lemma tilePos_is_int l tx ty :
  is_int (X (tilePos l tx ty)) /\ is_int (Y (tilePos l tx ty)).
Proof. split; apply wrap_is_int. Qed.

(** The destination rectangle starts at [pos]. *)
Lemma destRect_Min l tx ty :
  0 <= tilePx l -> Min (destRect l tx ty) = tilePos l tx ty.
Proof.
  intros H. unfold destRect. rewrite tileRect_nonneg by exact H.
  destruct (tilePos_is_int l tx ty) as [Hx Hy].
  destruct (tilePos l tx ty) as [px py]. simpl in *.
  unfold PtAdd, PtSub. simpl. unfold add, sub.
  rewrite !Z.sub_0_r, !Z.add_0_l, !wrap_idem, !wrap_id by assumption.
  reflexivity.
Qed.

(** What [draw.Copy] does to each pixel, for a source rectangle that
    starts at the origin. *)
Lemma Copy_pixels dst pos src sr :
  Min sr = Pt 0 0 ->
  let area := fst (draw.clip dst (Add sr (PtSub pos (Min sr))) src (Min sr)) in
  NRect (draw.Copy dst pos src sr) = NRect dst /\
  (forall px py, inside px py area ->
     PixAt (draw.Copy dst pos src sr) px py =
     NRGBA_of_RGBA64
       (draw.over (NRGBA_RGBA (PixAt dst px py))
                  (RGBA64At src (sub px (X pos)) (sub py (Y pos))))) /\
  (forall px py, ~ inside px py area ->
     PixAt (draw.Copy dst pos src sr) px py = PixAt dst px py).
Proof.
  intros Hmin. cbv zeta. unfold draw.Copy, draw.DrawMask.
  destruct (draw.clip dst (Add sr (PtSub pos (Min sr))) src (Min sr))
    as [r' sp'] eqn:Hclip.
  cbn [fst].
  unfold draw.clip in Hclip. injection Hclip as Hr Hsp.
  destruct (Empty r') eqn:He.
  - split; [reflexivity |]. split; [| reflexivity].
    intros px py Hin. now apply inside_Empty in Hin.
  - split; [reflexivity |]. split; intros px py Hin; simpl.
    + unfold inside in Hin. rewrite Hin.
      assert (Hdst : inside px py (NRect dst)).
      { rewrite <- Hr in Hin. apply inside_Intersect in Hin as [Hin _].
        now apply inside_Intersect in Hin as [_ Hin]. }
      unfold NRGBA_RGBA64At. unfold inside in Hdst. rewrite Hdst.
      do 3 f_equal.
      * rewrite <- Hsp, Hr, Hmin. destruct pos as [qx qy]. simpl. wrap_lia.
      * rewrite <- Hsp, Hr, Hmin. destruct pos as [qx qy]. simpl. wrap_lia.
    + destruct (PtIn (Pt px py) r') eqn:Hp; [now elim Hin | reflexivity].
Qed.

(** Under a fully opaque source colour nothing of the destination is
    left. *)
Lemma over_opaque d s :
  valid16 s -> alpha s = 65535 -> draw.over d s = s.
Proof.
  destruct d as [dr dg db da], s as [sr sg sb sa]. simpl.
  intros (Hr & Hg & Hb & Ha) ->. simpl.
  rewrite !Z.mul_0_r. simpl.
  now rewrite !Z.mod_small by lia.
Qed.

(** Under a fully transparent source colour a destination colour that is
    not opaque can change: the way through premultiplied 16-bit channels
    and back rounds. *)
Example over_clear_rounds_translucent :
  NRGBA_of_RGBA64 (draw.over (NRGBA_RGBA (nrgba 100 0 0 1)) (rgba64 0 0 0 0))
  = nrgba 99 0 0 1.
Proof. reflexivity. Qed.

(** Under a fully transparent source colour an opaque destination colour
    stays. *)
Lemma over_clear_on_opaque r g b :
  0 <= r < 256 -> 0 <= g < 256 -> 0 <= b < 256 ->
  NRGBA_of_RGBA64 (draw.over (NRGBA_RGBA (nrgba r g b 255)) (rgba64 0 0 0 0))
  = nrgba r g b 255.
Proof.
  intros Hr Hg Hb. unfold NRGBA_RGBA, draw.over.
  assert (H : forall v, 0 <= v < 256 ->
            ((Z.quot (v * 257 * 255) 255 * (65535 - 0) / 65535 + 0) mod 65536) = v * 257).
  { intros v Hv. replace (v * 257 * 255) with (v * 257 * 255) by lia.
    rewrite Z.quot_mul by lia. rewrite Z.sub_0_r, Z.div_mul by lia.
    rewrite Z.add_0_r. apply Z.mod_small. lia. }
  rewrite !H by assumption.
  replace ((255 * 257 * (65535 - 0) / 65535 + 0) mod 65536) with 65535 by reflexivity.
  unfold NRGBA_of_RGBA64. simpl andb. cbv iota.
  assert (H8 : forall v, 0 <= v < 256 -> Z.shiftr (v * 257) 8 mod 256 = v).
  { intros v Hv. rewrite Z.shiftr_div_pow2 by lia.
    change (2 ^ 8) with 256.
    replace (v * 257) with (v + v * 256) by lia.
    rewrite Z.div_add by lia. rewrite (Z.div_small v 256) by lia.
    apply Z.mod_small. lia. }
  rewrite !H8 by assumption. reflexivity.
Qed.

Lemma nth_error_store (hp : list NRGBA) (p : ptr) (b b' : NRGBA) :
  nth_error hp p = Some b -> nth_error (store hp p b') p = Some b'.
Proof.
  revert p. induction hp as [| b0 hp IH]; intros [| p] H; simpl in *;
    try discriminate; [reflexivity | now apply IH].
Qed.

Section Compositing.

Variable E : Env.

(** C3 (amended): when the body of the loop copies a fetched (and, for
    [scale > 1], resampled) tile into the buffer, the pixels written are
    those of the tile's destination rectangle that lie inside the buffer
    and under the image copied; each becomes the source colour composed
    over its old colour with the Porter-Duff [Over] operator on
    alpha-premultiplied colours, stored back as [color.NRGBA].  For a fully
    opaque source colour that is the source colour itself, whatever was
    there before; for a fully transparent source colour a pixel that was
    fully opaque keeps its colour.  Every other pixel of the buffer keeps
    its colour. *)
Theorem drawTile_composites_with_over :
  forall (l : Locals) (tx ty : Z) (st : State E)
         (src : Image) (net' : TileSource E) (p : ptr) (dst : NRGBA),
    offGrid l tx ty = false ->
    getTile E (net st) tx ty (zoom (this st)) = (inl src, net') ->
    pixels (this st) = Some p ->
    nth_error (heap st) p = Some dst ->
    0 <= tilePx l ->
    let scaled := scaledTile E l src in
    let pos := tilePos l tx ty in
    let area := painted l dst scaled tx ty in
    exists (st' : State E) (dst' : NRGBA),
      drawTile E l tx ty st = Ok st' /\
      nth_error (heap st') p = Some dst' /\
      NRect dst' = NRect dst /\
      (forall px py,
          inside px py area <->
          inside px py (destRect l tx ty) /\ inside px py (NRect dst) /\
          inside px py (Add (Bounds scaled) pos)) /\
      (forall px py,
          inside px py area ->
          let s := RGBA64At scaled (sub px (X pos)) (sub py (Y pos)) in
          PixAt dst' px py =
            NRGBA_of_RGBA64 (draw.over (NRGBA_RGBA (PixAt dst px py)) s) /\
          (valid16 s -> alpha s = 65535 ->
           PixAt dst' px py = NRGBA_of_RGBA64 s) /\
          (s = rgba64 0 0 0 0 -> opaque8 (PixAt dst px py) ->
           PixAt dst' px py = PixAt dst px py)) /\
      (forall px py,
          ~ inside px py area -> PixAt dst' px py = PixAt dst px py).
Proof.
  intros l tx ty st src net' p dst Hg Hget Hp Hd Hts scaled pos area.
  pose proof (tileRect_nonneg l Hts) as Hrect.
  assert (Hmin : Min (tileRect l) = Pt 0 0) by now rewrite Hrect.
  destruct (Copy_pixels dst pos scaled (tileRect l) Hmin) as (Hb & Hin & Hout).
  exists (log E (Copied p pos (tileRect l))
            (mkState (this st)
               (store (heap st) p (draw.Copy dst pos scaled (tileRect l)))
               net' (trace st ++ [Fetch tx ty (zoom (this st))]))).
  exists (draw.Copy dst pos scaled (tileRect l)).
  split.
  { unfold drawTile. rewrite Hg, Hget. cbn [log this heap net trace].
    rewrite Hp, Hd. reflexivity. }
  split; [cbn [log heap]; now apply (nth_error_store _ _ dst) |].
  split; [exact Hb |].
  split; [| split].
  - intros px py. unfold area, painted, draw.clip. cbn [fst].
    rewrite !inside_Intersect.
    rewrite (destRect_Min l tx ty Hts), Hmin. fold pos.
    destruct (tilePos_is_int l tx ty) as [Hx Hy]. fold pos in Hx, Hy.
    replace (PtSub pos (Pt 0 0)) with pos.
    + tauto.
    + destruct pos as [qx qy]. unfold PtSub. simpl in *. unfold sub.
      rewrite !Z.sub_0_r, !wrap_id by assumption. reflexivity.
  - intros px py Hpx. cbv zeta. split; [now apply Hin |]. split.
    + intros Hv Ha. rewrite (Hin px py Hpx). now rewrite over_opaque.
    + intros Hs Ho. rewrite (Hin px py Hpx), Hs.
      destruct (PixAt dst px py) as [r g b a].
      destruct Ho as (Hcr & Hcg & Hcb & ->).
      now apply over_clear_on_opaque.
  - intros px py Hpx. now apply Hout.
Qed.

End Compositing.

Lemma drawTile_composites_with_over_witness :
  exists (st' : State redServer) (dst' : NRGBA),
    drawTile redServer worldView 0 0 onBlank = Ok st' /\
    nth_error (heap st') 0 = Some dst' /\
    PixAt dst' 128 128 = nrgba 255 0 0 255 /\
    PixAt dst' 127 128 = nrgba 0 0 0 0.
Proof.
  destruct (drawTile_composites_with_over redServer worldView 0 0 onBlank
              redTile tt 0%nat (blank (Rect 0 0 512 512)))
    as (st' & dst' & Hrun & Hheap & _ & _ & Hin & Hout); try reflexivity.
  - simpl. lia.
  - exists st', dst'. split; [exact Hrun |]. split; [exact Hheap |]. split.
    + destruct (Hin 128 128) as [-> _]; [vm_compute; reflexivity |].
      vm_compute. reflexivity.
    + rewrite Hout; [reflexivity |]. intros H. vm_compute in H. discriminate.
Defined.

(** C3 as stated fails for a tile that is not opaque.  A widget zoomed in
    once draws 512 by 512 pixels, which four red tiles fill; asked next for
    0 by 0 pixels it keeps that buffer and copies tile (1, 1), now fully
    transparent, to (0, 0): the pixel there stays red instead of taking
    the colour of the source. *)
Lemma transparent_tile_leaves_pixels :
  let r1 := draw fadingServer 5 None 512 512 zoomedOnce in
  let r2 := draw fadingServer 5 None 0 0 (state_of r1) in
  returns r1 = true /\ returns r2 = true /\
  fetched (trace (state_of r1)) = [(0, 0, 1); (0, 1, 1); (1, 0, 1); (1, 1, 1)] /\
  fetched (trace (state_of r2)) =
    fetched (trace (state_of r1)) ++ [(1, 1, 1)] /\
  copies (trace (state_of r2)) =
    copies (trace (state_of r1)) ++ [(0%nat, Pt 0 0, Rect 0 0 256 256)] /\
  pixelAt (state_of r1) 0 0 = Some (nrgba 255 0 0 255) /\
  NRGBA_of_RGBA64 (RGBA64At clearTile 0 0) = nrgba 0 0 0 0 /\
  pixelAt (state_of r2) 0 0 = Some (nrgba 255 0 0 255) /\
  pixelAt (state_of r2) 0 0 <> Some (NRGBA_of_RGBA64 (RGBA64At clearTile 0 0)).
Proof.
  cbv zeta. repeat split; try (vm_compute; reflexivity).
  vm_compute. discriminate.
Qed.

(** ** Placement *)

Section Visited.

Context {St : Type}.

Lemma indices_snoc i n :
  indices i (S n) = indices i n ++ [Nat.iter n (fun v => add v 1) i].
Proof.
  revert i. induction n as [| n IH]; intros i; [reflexivity |].
  change (indices i (S (S n))) with (i :: indices (add i 1) (S n)).
  rewrite IH.
  change (indices i (S n)) with (i :: indices (add i 1) n).
  rewrite <- app_comm_cons. do 3 f_equal.
  symmetry. apply (Nat.iter_succ_r n Z (fun v => add v 1) i).
Qed.

(** A loop invariant that may use, at each run of the body, that the loop
    test held for every index so far. *)
Lemma for_loop_inv_visited (P : St -> Prop) (cond : Z -> bool)
    (body : Z -> St -> res St) (i0 : Z) :
  (forall k s,
      Forall (fun j => cond j = true) (indices i0 (S k)) ->
      P s -> P (state_of (body (Nat.iter k (fun v => add v 1) i0) s))) ->
  forall fuel s, P s -> P (state_of (for_loop fuel cond body i0 s)).
Proof.
  intros Hbody.
  assert (G : forall fuel n s,
             Forall (fun j => cond j = true) (indices i0 n) -> P s ->
             P (state_of (for_loop fuel cond body
                            (Nat.iter n (fun v => add v 1) i0) s))).
  { induction fuel as [| fuel IH]; intros n s Hall Hs; simpl; [exact Hs |].
    destruct (cond (Nat.iter n (fun v => add v 1) i0)) eqn:Hc; [| exact Hs].
    assert (Hall' : Forall (fun j => cond j = true) (indices i0 (S n))).
    { rewrite indices_snoc. apply Forall_app. split; [exact Hall |].
      constructor; [exact Hc | constructor]. }
    pose proof (Hbody n s Hall' Hs) as Hb.
    destruct (body (Nat.iter n (fun v => add v 1) i0) s) as [s' | s' | s'];
      simpl in *; auto.
    apply (IH (S n) s' Hall' Hb). }
  intros fuel s Hs. apply (G fuel O s); [constructor | exact Hs].
Qed.

End Visited.

(** Inside the operating range an index for which the loop test held all
    along is one of the first [steps]. *)
Lemma visited_in_steps l first size k :
  is_int first -> 0 < tilePx l -> 0 <= size -> size + 2 * tilePx l <= maxInt ->
  Forall (fun j => inView l first size j = true) (indices first (S k)) ->
  In (Nat.iter k (fun v => add v 1) first) (indices first (steps l size)).
Proof.
  intros Hf Hts Hsz Hmax Hall.
  destruct (inView_steps l first size Hf Hts Hsz Hmax) as [_ Hend].
  destruct (Nat.lt_ge_cases k (steps l size)) as [Hlt | Hge].
  - rewrite indices_iter, iter_succ_int by exact Hf.
    apply in_map_iff. exists k. split; [reflexivity |]. apply in_seq. lia.
  - exfalso. rewrite Forall_forall in Hall.
    rewrite (Hall (Nat.iter (steps l size) (fun v => add v 1) first)) in Hend;
      [discriminate |].
    rewrite indices_iter, iter_succ_int by exact Hf.
    apply in_map_iff. exists (steps l size). split; [reflexivity |].
    apply in_seq. lia.
Qed.

(** The loop variable of a visited column or row. *)
Lemma in_indices_steps l first size t :
  is_int first -> 0 < tilePx l -> 0 <= size ->
  In t (indices first (steps l size)) ->
  exists k, 0 <= k <= (size + tilePx l) / tilePx l /\ t = wrap (first + k).
Proof.
  intros Hf Hts Hsz Hin. rewrite indices_iter in Hin by exact Hf.
  apply in_map_iff in Hin as (k & <- & Hk). apply in_seq in Hk.
  exists (Z.of_nat k). split; [| reflexivity].
  unfold steps in Hk.
  destruct (size + tilePx l <? 0) eqn:E; [apply Z.ltb_lt in E; lia |].
  pose proof (Z.div_pos (size + tilePx l) (tilePx l) ltac:(lia) ltac:(lia)).
  lia.
Qed.

(** The position of a visited tile, up to a multiple of 2^64. *)
Lemma tilePos_congr mid m first ts k :
  exists Q, add mid (mul (sub (wrap (first + k)) m) ts)
            = mid + (first - m) * ts + k * ts + 2 ^ 64 * Q.
Proof.
  unfold add, mul, sub.
  destruct (wrap_spec (first + k)) as [q1 H1]. rewrite H1.
  destruct (wrap_spec (first + k + 2 ^ 64 * q1 - m)) as [q2 H2]. rewrite H2.
  destruct (wrap_spec ((first + k + 2 ^ 64 * q1 - m + 2 ^ 64 * q2) * ts)) as [q3 H3].
  rewrite H3.
  destruct (wrap_spec (mid + ((first + k + 2 ^ 64 * q1 - m + 2 ^ 64 * q2) * ts
                              + 2 ^ 64 * q3))) as [q4 H4].
  rewrite H4. exists (q4 + q3 + (q1 + q2) * ts). ring.
Qed.

(** On one axis, the destination intervals of two tiles the loop visits
    at different steps share no point. *)
Lemma axis_disjoint ts size mid m first k1 k2 px :
  0 < ts -> 0 <= size -> size + 2 * ts <= maxInt ->
  0 <= k1 <= (size + ts) / ts -> 0 <= k2 <= (size + ts) / ts -> k1 <> k2 ->
  let p1 := add mid (mul (sub (wrap (first + k1)) m) ts) in
  let p2 := add mid (mul (sub (wrap (first + k2)) m) ts) in
  add 0 (sub p1 0) <= px < add ts (sub p1 0) ->
  add 0 (sub p2 0) <= px < add ts (sub p2 0) ->
  False.
Proof.
  intros Hts Hsz Hmax Hk1 Hk2 Hne p1 p2.
  pose proof (Z.mul_div_le (size + ts) ts Hts) as HK.
  set (K := (size + ts) / ts) in *.
  destruct (tilePos_congr mid m first ts k1) as [Q1 E1]. fold p1 in E1.
  destruct (tilePos_congr mid m first ts k2) as [Q2 E2]. fold p2 in E2.
  assert (I1 : is_int p1) by apply wrap_is_int.
  assert (I2 : is_int p2) by apply wrap_is_int.
  unfold sub, add. rewrite !Z.sub_0_r, !Z.add_0_l, !wrap_idem.
  rewrite (wrap_id p1 I1), (wrap_id p2 I2).
  destruct (wrap_spec (ts + p1)) as [q1 M1]. pose proof (wrap_is_int (ts + p1)) as J1.
  destruct (wrap_spec (ts + p2)) as [q2 M2]. pose proof (wrap_is_int (ts + p2)) as J2.
  rewrite M1, M2 in *.
  set (C := (first - m) * ts) in *.
  assert (HD1 : 0 <= k1 * ts <= size + ts) by nia.
  assert (HD2 : 0 <= k2 * ts <= size + ts) by nia.
  assert (HD : ts <= k1 * ts - k2 * ts \/ ts <= k2 * ts - k1 * ts) by nia.
  set (D1 := k1 * ts) in *. set (D2 := k2 * ts) in *.
  unfold is_int, minInt, maxInt in *.
  intros A1 A2. lia.
Qed.

Section Placement.

Variable E : Env.

Lemma fetches_in_view_refl l wpx hpx (st : State E) :
  fetches_in_view l wpx hpx st st.
Proof.
  exists []. rewrite app_nil_r. split; [reflexivity |].
  split; [constructor | intros ? ? ? []].
Qed.

(** One run of the body in a visited column and row keeps the
    invariant. *)
Lemma drawTile_fetches_in_view l wpx hpx st0 tx ty (st : State E) :
  In tx (columns l wpx) -> In ty (rows l hpx) ->
  fetches_in_view l wpx hpx st0 st ->
  fetches_in_view l wpx hpx st0 (state_of (drawTile E l tx ty st)).
Proof.
  intros Hx Hy (evs & Htr & Hall & Hcp).
  destruct (drawTile_events E l tx ty st) as [_ (evs' & Htr' & Hf & Hc)].
  exists (evs ++ evs'). split; [rewrite Htr', Htr; now rewrite app_assoc |].
  rewrite fetched_app, copies_app. split.
  - apply Forall_app. split; [exact Hall |].
    rewrite Hf. destruct (offGrid l tx ty); constructor; [split; assumption | constructor].
  - intros p pos sr Hin. apply in_app_or in Hin as [Hin | Hin].
    + destruct (Hcp p pos sr Hin) as (tx' & ty' & z & Ht & Hpos & Hsr).
      exists tx', ty', z. split; [apply in_or_app; now left | auto].
    + destruct (Hc p pos sr Hin) as (Hg & _ & Hpos & Hsr).
      exists tx, ty, (zoom (this st)). split; [| auto].
      apply in_or_app. right. rewrite Hf, Hg. now left.
Qed.

Lemma drawTiles_fetches_in_view fuel l wpx hpx (st : State E) :
  0 < tilePx l -> 0 <= wpx -> 0 <= hpx ->
  wpx + 2 * tilePx l <= maxInt -> hpx + 2 * tilePx l <= maxInt ->
  is_int (firstTileX l) -> is_int (firstTileY l) ->
  fetches_in_view l wpx hpx st (state_of (drawTiles E fuel l wpx hpx st)).
Proof.
  intros Hts Hw Hh Hwm Hhm Hfx Hfy. unfold drawTiles.
  apply for_loop_inv_visited; [| apply fetches_in_view_refl].
  intros kx s Hallx Hs.
  apply for_loop_inv_visited; [| exact Hs].
  intros ky s' Hally Hs'.
  apply drawTile_fetches_in_view; [| | exact Hs'].
  - now apply visited_in_steps.
  - now apply visited_in_steps.
Qed.

(** C6 (amended): for a requested size inside the operating range
    ([0 <= w], [0 <= h], and [w + 512 * scale], [h + 512 * scale] no larger
    than the largest [int], [scale] being the scale of the canvas), any two
    distinct tiles fetched in one call of [draw] (the tiles that pass the
    test of line 129) have destination rectangles, each [tilePx] by
    [tilePx] at [(midTileX + (x-mx)*tilePx, midTileY + (y-my)*tilePx)],
    with no pixel in common; and every copy the call makes puts a fetched
    tile at that position. *)
Theorem fetched_tiles_do_not_overlap :
  forall (fuel : nat) (canvas : option float32) (wpx hpx : Z) (st : State E),
    in_range canvas wpx hpx ->
    forall evs,
      trace (state_of (draw E fuel canvas wpx hpx st)) = trace st ++ evs ->
      let l := locals canvas wpx hpx (this st) in
      (forall tx1 ty1 z1 tx2 ty2 z2,
          In (tx1, ty1, z1) (fetched evs) ->
          In (tx2, ty2, z2) (fetched evs) ->
          tx1 <> tx2 \/ ty1 <> ty2 ->
          forall px py,
            ~ (inside px py (destRect l tx1 ty1) /\
               inside px py (destRect l tx2 ty2))) /\
      (forall p pos sr,
          In (p, pos, sr) (copies evs) ->
          exists tx ty z,
            In (tx, ty, z) (fetched evs) /\
            pos = Pt (add (midTileX l) (mul (sub tx (mx l)) (tilePx l)))
                     (add (midTileY l) (mul (sub ty (my l)) (tilePx l))) /\
            sr = Rect 0 0 (tilePx l) (tilePx l) /\
            Min (destRect l tx ty) = pos).
Proof.
  intros fuel canvas wpx hpx st Hrange evs Htrace l.
  destruct Hrange as (Hw & Hh & Hwm & Hhm).
  pose proof (canvasScale_pos canvas) as Hs.
  assert (Hts : tilePx l = 256 * canvasScale canvas) by (apply locals_tilePx; lia).
  destruct (locals_first_is_int canvas wpx hpx (this st)) as [Hfx Hfy].
  fold l in Hfx, Hfy.
  assert (Hinv : fetches_in_view l wpx hpx st
                   (state_of (draw E fuel canvas wpx hpx st))).
  { unfold draw.
    pose proof (reallocate_frame E wpx hpx st) as Hr. cbv zeta in Hr.
    destruct (reallocate E wpx hpx st) as [st1 | st1 | st1]; simpl in Hr;
      destruct Hr as (Htr & _ & _ & _ & Hz1 & Hx1 & Hy1);
      try (exists []; rewrite app_nil_r; simpl;
           split; [exact Htr | split; [constructor | intros ? ? ? []]]).
    destruct (zoom (this st1) <? 0).
    { exists []. rewrite app_nil_r. simpl.
      split; [exact Htr | split; [constructor | intros ? ? ? []]]. }
    rewrite (locals_frame canvas wpx hpx (this st) (this st1) Hz1 Hx1 Hy1). fold l.
    destruct (drawTiles_fetches_in_view fuel l wpx hpx st1)
      as (evs1 & Htr1 & H1); try assumption; try lia.
    exists evs1. split; [now rewrite Htr1, Htr | exact H1]. }
  destruct Hinv as (evs' & Htr' & Hall & Hcp).
  assert (evs' = evs) by (rewrite Htrace in Htr'; now apply app_inv_head in Htr').
  subst evs'. rewrite Forall_forall in Hall.
  split.
  - intros tx1 ty1 z1 tx2 ty2 z2 Hin1 Hin2 Hne px py [Hp1 Hp2].
    pose proof (Hall _ Hin1) as [Hc1 Hr1]. pose proof (Hall _ Hin2) as [Hc2 Hr2].
    apply in_indices_steps in Hc1 as (kx1 & Hkx1 & ->); try assumption; try lia.
    apply in_indices_steps in Hc2 as (kx2 & Hkx2 & ->); try assumption; try lia.
    apply in_indices_steps in Hr1 as (ky1 & Hky1 & ->); try assumption; try lia.
    apply in_indices_steps in Hr2 as (ky2 & Hky2 & ->); try assumption; try lia.
    apply PtIn_spec in Hp1, Hp2.
    unfold destRect in Hp1, Hp2.
    rewrite tileRect_nonneg in Hp1, Hp2 by lia.
    simpl in Hp1, Hp2.
    destruct Hp1 as [Hx1 Hy1], Hp2 as [Hx2 Hy2].
    destruct (Z.eq_dec kx1 kx2) as [Ekx | Nkx].
    + destruct (Z.eq_dec ky1 ky2) as [Eky | Nky]; [subst; lia |].
      apply (axis_disjoint (tilePx l) hpx (midTileY l) (my l) (firstTileY l) ky1 ky2 py);
        try assumption; lia.
    + apply (axis_disjoint (tilePx l) wpx (midTileX l) (mx l) (firstTileX l) kx1 kx2 px);
        try assumption; lia.
  - intros p pos sr Hin.
    destruct (Hcp p pos sr Hin) as (tx & ty & z & Ht & Hpos & Hsr).
    exists tx, ty, z. split; [exact Ht |].
    split; [exact Hpos |]. split; [exact Hsr |].
    rewrite destRect_Min by lia. now symmetry.
Qed.

End Placement.

Lemma fetched_tiles_do_not_overlap_witness :
  in_range None 1024 768 /\
  inside 100 0 (destRect (locals None 1024 768 (this atZoom2)) 0 0) /\
  ~ inside 100 0 (destRect (locals None 1024 768 (this atZoom2)) 1 0).
Proof.
  assert (Hrange : in_range None 1024 768)
    by (unfold in_range, maxInt; simpl; lia).
  assert (Hin : inside 100 0 (destRect (locals None 1024 768 (this atZoom2)) 0 0))
    by (vm_compute; reflexivity).
  split; [exact Hrange |]. split; [exact Hin |].
  intros Hin'.
  apply (proj1 (fetched_tiles_do_not_overlap redServer 10 None 1024 768 atZoom2
                  Hrange
                  (trace (state_of (draw redServer 10 None 1024 768 atZoom2)))
                  eq_refl) 0 0 2 1 0 2) with (px := 100) (py := 0).
  - vm_compute. repeat ((left; reflexivity) || right).
  - vm_compute. repeat ((left; reflexivity) || right).
  - left. lia.
  - split; assumption.
Defined.

(** Wrapped to an [int], a multiple of 2^62 is one of -2^63, -2^62, 0 and
    2^62. *)
Lemma mul_quarter_le n : mul n (2 ^ 62) <= 2 ^ 62.
Proof.
  unfold mul. destruct (wrap_spec (n * 2 ^ 62)) as [q Hq].
  pose proof (wrap_is_int (n * 2 ^ 62)) as Hi. rewrite Hq in *.
  unfold is_int, minInt, maxInt in Hi.
  change (2 ^ 64) with (4 * 2 ^ 62) in *. change (2 ^ 63) with (2 * 2 ^ 62) in *.
  assert (Hu : 0 < 2 ^ 62) by lia.
  set (u := 2 ^ 62) in *.
  assert (Hn : n + 4 * q <= 1) by nia.
  nia.
Qed.

(** C6 as stated fails outside the operating range.  On a canvas of scale
    2^54 a tile is 2^62 pixels wide, and a widget at zoom level 4 asked for
    0 by 0 pixels starts its scan at tile (8, 8), which it places at
    (0, 0).  The test of the row loop, [(y-8) * 2^62 <= 2^62], holds for
    every [y], the product wrapping onto 0, 2^62, -2^63 or -2^62: the call
    fetches tiles (8, 8) to (8, 12) within its first five steps.  Four
    tiles further down the position is 2^64 pixels further, which is the
    same [int]: tiles (8, 8) and (8, 12), both on the grid and both fetched
    in this call, have the same destination rectangle. *)
Lemma tiles_overlap_beyond_range :
  let canvas := Some hugeScale in
  let l := locals canvas 0 0 (this atZoom4) in
  let r := draw offline 5 canvas 0 0 atZoom4 in
  canvasScale canvas = 2 ^ 54 /\ tilePx l = 2 ^ 62 /\
  0 + 512 * canvasScale canvas = maxInt + 1 /\
  ~ in_range canvas 0 0 /\
  (forall ty, inView l (firstTileY l) 0 ty = true) /\
  fetched (trace (state_of r)) =
    [(8, 8, 4); (8, 9, 4); (8, 10, 4); (8, 11, 4); (8, 12, 4)] /\
  offGrid l 8 8 = false /\ offGrid l 8 12 = false /\
  destRect l 8 8 = Rect 0 0 (2 ^ 62) (2 ^ 62) /\
  destRect l 8 12 = Rect 0 0 (2 ^ 62) (2 ^ 62) /\
  inside 5 5 (destRect l 8 8) /\ inside 5 5 (destRect l 8 12).
Proof.
  cbv zeta.
  assert (Hl : locals (Some hugeScale) 0 0 (this atZoom4) =
               {| scale := 2 ^ 54; tilePx := 2 ^ 62;
                  midTileX := - 2 ^ 62; midTileY := - 2 ^ 62;
                  count := 16; mx := 7; my := 7;
                  firstTileX := 8; firstTileY := 8 |})
    by (vm_compute; reflexivity).
  split; [vm_compute; reflexivity |].
  split; [vm_compute; reflexivity |].
  split; [vm_compute; reflexivity |].
  split.
  { unfold in_range. intros (_ & _ & H & _). vm_compute in H. now apply H. }
  split.
  { intros ty. rewrite Hl. unfold inView. cbn [tilePx firstTileY].
    apply Z.leb_le.
    replace (add 0 (2 ^ 62)) with (2 ^ 62) by (vm_compute; reflexivity).
    apply mul_quarter_le. }
  repeat split; vm_compute; reflexivity.
Qed.

(** The same happens in a call that returns.  On a canvas of scale
    3 * 2^52 a tile is 3 * 2^60 pixels wide; a widget at zoom level 4, seven
    tiles up, asked for 0 by 7 * 2^59 pixels scans rows 0 to 12 of columns
    8 and 9 and returns.  From row 3 on the positions wrap around: tiles
    (8, 0) and (8, 5), both fetched, both contain the point (0, 0). *)
Lemma tiles_overlap_in_a_returning_call :
  let canvas := Some largeScale in
  let hpx := 7 * 2 ^ 59 in
  let l := locals canvas 0 hpx (this atZoom4North) in
  let r := draw offline 14 canvas 0 hpx atZoom4North in
  canvasScale canvas = 3 * 2 ^ 52 /\ tilePx l = 3 * 2 ^ 60 /\
  ~ in_range canvas 0 hpx /\
  returns r = true /\
  In (8, 0, 4) (fetched (trace (state_of r))) /\
  In (8, 5, 4) (fetched (trace (state_of r))) /\
  Y (Min (destRect l 8 0)) = - (5 * 2 ^ 58) /\
  Y (Max (destRect l 8 0)) = 7 * 2 ^ 58 /\
  Y (Min (destRect l 8 5)) = - (9 * 2 ^ 58) /\
  Y (Max (destRect l 8 5)) = 3 * 2 ^ 58 /\
  inside 0 0 (destRect l 8 0) /\ inside 0 0 (destRect l 8 5).
Proof.
  cbv zeta.
  split; [vm_compute; reflexivity |].
  split; [vm_compute; reflexivity |].
  split.
  { unfold in_range. intros (_ & _ & _ & H). vm_compute in H. now apply H. }
  split; [vm_compute; reflexivity |].
  split; [vm_compute; repeat ((left; reflexivity) || right) |].
  split; [vm_compute; repeat ((left; reflexivity) || right) |].
  repeat split; vm_compute; reflexivity.
Qed.

(** * Further properties of the widget *)

(** ** Buttons *)

Section Buttons.

Lemma press_frame b m :
  pixels (press b m) = pixels m /\ w (press b m) = w m /\ h (press b m) = h m.
Proof.
  destruct b; simpl; auto; unfold zoomIn, zoomOut;
    match goal with |- context [if ?c then _ else _] => destruct c end; auto.
Qed.

Lemma press_zoom_range b m :
  0 <= zoom m <= 19 -> 0 <= zoom (press b m) <= 19.
Proof.
  intros Hz. destruct b; simpl; try exact Hz.
  - unfold zoomIn. destruct (19 <=? zoom m) eqn:E; [exact Hz |].
    apply Z.leb_gt in E. simpl. unfold add.
    rewrite wrap_id by (unfold is_int, minInt, maxInt; lia). lia.
  - unfold zoomOut. destruct (zoom m <=? 0) eqn:E; [exact Hz |].
    apply Z.leb_gt in E. simpl. unfold sub.
    rewrite wrap_id by (unfold is_int, minInt, maxInt; lia). lia.
Qed.

Lemma press_is_int b m :
  is_int (x m) -> is_int (y m) ->
  is_int (x (press b m)) /\ is_int (y (press b m)).
Proof.
  intros Hx Hy.
  destruct b; unfold press, zoomIn, zoomOut, moveUp, navigateBack,
    navigateNext, moveDown;
    try match goal with |- context [if ?c then _ else _] => destruct c end;
    cbn [x y]; split; first [assumption | apply wrap_is_int].
Qed.

(** X1: whatever buttons are pressed, in whatever order, a zoom level
    that is within 0..19 stays within 0..19 (so the tile count [1 << zoom]
    is at most 2^19 and the shift in [draw] cannot panic), the centre
    coordinates stay Go [int]s, and neither [m.pixels] nor the stored size
    is touched. *)
Theorem buttons_keep_zoom_within_limits :
  forall (bs : list button) (m : Map),
    0 <= zoom m <= 19 -> is_int (x m) -> is_int (y m) ->
    0 <= zoom (pressAll bs m) <= 19 /\
    shl 1 (zoom (pressAll bs m)) = 2 ^ zoom (pressAll bs m) /\
    is_int (x (pressAll bs m)) /\ is_int (y (pressAll bs m)) /\
    pixels (pressAll bs m) = pixels m /\
    w (pressAll bs m) = w m /\ h (pressAll bs m) = h m.
Proof.
  intros bs. unfold pressAll.
  induction bs as [| b bs IH]; intros m Hz Hx Hy; simpl.
  - split; [exact Hz |]. split; [apply count_small; lia |]. auto.
  - destruct (press_frame b m) as (Hp & Hw & Hh).
    destruct (press_is_int b m Hx Hy) as [Hx' Hy'].
    pose proof (press_zoom_range b m Hz) as Hz'.
    destruct (IH (press b m) Hz' Hx' Hy') as (H1 & H2 & H3 & H4 & H5 & H6 & H7).
    split; [exact H1 |]. split; [exact H2 |]. split; [exact H3 |].
    split; [exact H4 |]. split; [congruence |]. split; congruence.
Qed.

Lemma buttons_keep_zoom_within_limits_witness :
  0 <= zoom (pressAll [ZoomOut; ZoomIn; ZoomIn; NavigateBack] NewMap) <= 19 /\
  shl 1 (zoom (pressAll [ZoomOut; ZoomIn; ZoomIn; NavigateBack] NewMap))
    = 2 ^ zoom (pressAll [ZoomOut; ZoomIn; ZoomIn; NavigateBack] NewMap) /\
  is_int (x (pressAll [ZoomOut; ZoomIn; ZoomIn; NavigateBack] NewMap)) /\
  is_int (y (pressAll [ZoomOut; ZoomIn; ZoomIn; NavigateBack] NewMap)) /\
  pixels (pressAll [ZoomOut; ZoomIn; ZoomIn; NavigateBack] NewMap) = pixels NewMap /\
  w (pressAll [ZoomOut; ZoomIn; ZoomIn; NavigateBack] NewMap) = w NewMap /\
  h (pressAll [ZoomOut; ZoomIn; ZoomIn; NavigateBack] NewMap) = h NewMap.
Proof.
  apply (buttons_keep_zoom_within_limits
           [ZoomOut; ZoomIn; ZoomIn; NavigateBack] NewMap);
    unfold is_int, minInt, maxInt; simpl; lia.
Defined.

(** X2: zoom-out followed by zoom-in, from any level 1..19, brings the
    zoom level back and rounds each centre coordinate toward zero to an
    even number: [x] becomes [x - x rem 2], so an even coordinate is
    restored exactly and an odd one moves by one tile toward zero. *)
Theorem zoom_out_in_rounds_to_even :
  forall m : Map,
    1 <= zoom m <= 19 -> is_int (x m) -> is_int (y m) ->
    zoomIn (zoomOut m) =
    {| pixels := pixels m; w := w m; h := h m; zoom := zoom m;
       x := x m - Z.rem (x m) 2; y := y m - Z.rem (y m) 2 |} /\
    Z.abs (x (zoomIn (zoomOut m)) - x m) <= 1 /\
    Z.abs (y (zoomIn (zoomOut m)) - y m) <= 1.
Proof.
  intros m Hz Hx Hy.
  assert (Hrem : forall v, is_int v ->
            mul (quo v 2) 2 = v - Z.rem v 2 /\ Z.abs (Z.rem v 2) <= 1).
  { intros v Hv. unfold is_int, minInt, maxInt in Hv.
    pose proof (Z.quot_rem' v 2) as Hqr.
    pose proof (Z.rem_bound_abs v 2 ltac:(lia)) as Hb.
    assert (Hs : (0 <= v -> 0 <= Z.rem v 2) /\ (v <= 0 -> Z.rem v 2 <= 0)).
    { split; intros H0.
      - apply Z.rem_nonneg; lia.
      - apply Z.rem_nonpos; lia. }
    assert (Hq : is_int (Z.quot v 2)) by (unfold is_int, minInt, maxInt; lia).
    unfold quo, mul. rewrite (wrap_id _ Hq).
    rewrite wrap_id; [split; lia | unfold is_int, minInt, maxInt; lia]. }
  destruct (Hrem _ Hx) as [Ex Bx]. destruct (Hrem _ Hy) as [Ey By].
  assert (E : zoomIn (zoomOut m) =
              {| pixels := pixels m; w := w m; h := h m; zoom := zoom m;
                 x := x m - Z.rem (x m) 2; y := y m - Z.rem (y m) 2 |}).
  { unfold zoomOut. destruct (zoom m <=? 0) eqn:E0; [apply Z.leb_le in E0; lia |].
    unfold zoomIn. simpl.
    assert (Ez : sub (zoom m) 1 = zoom m - 1)
      by (apply wrap_id; unfold is_int, minInt, maxInt; lia).
    rewrite Ez. destruct (19 <=? zoom m - 1) eqn:E1; [apply Z.leb_le in E1; lia |].
    rewrite Ex, Ey. unfold add. replace (zoom m - 1 + 1) with (zoom m) by lia.
    rewrite wrap_id by (unfold is_int, minInt, maxInt; lia). reflexivity. }
  rewrite E. simpl. split; [reflexivity |]. lia.
Qed.

Lemma zoom_out_in_rounds_to_even_witness :
  zoomIn (zoomOut midZoom) =
  {| pixels := pixels midZoom; w := w midZoom; h := h midZoom; zoom := zoom midZoom;
     x := x midZoom - Z.rem (x midZoom) 2; y := y midZoom - Z.rem (y midZoom) 2 |} /\
  Z.abs (x (zoomIn (zoomOut midZoom)) - x midZoom) <= 1 /\
  Z.abs (y (zoomIn (zoomOut midZoom)) - y midZoom) <= 1.
Proof.
  apply (zoom_out_in_rounds_to_even midZoom);
    unfold is_int, minInt, maxInt; simpl; lia.
Defined.

End Buttons.

Section Panning.

(** X3: one tile at a zoom level is two tiles at the next: below level 19,
    a pan step followed by zoom-in is zoom-in followed by two pan steps in
    the same direction, for each of the four directions and for every
    [int] centre, wrap-around included. *)
Theorem zoom_in_doubles_pan_steps :
  forall m : Map,
    zoom m < 19 ->
    zoomIn (navigateNext m) = navigateNext (navigateNext (zoomIn m)) /\
    zoomIn (navigateBack m) = navigateBack (navigateBack (zoomIn m)) /\
    zoomIn (moveDown m) = moveDown (moveDown (zoomIn m)) /\
    zoomIn (moveUp m) = moveUp (moveUp (zoomIn m)).
Proof.
  intros m Hz.
  assert (E : (19 <=? zoom m) = false) by (apply Z.leb_gt; exact Hz).
  unfold zoomIn, navigateNext, navigateBack, moveDown, moveUp. simpl.
  rewrite E. simpl.
  assert (Hup : forall v, mul (add v 1) 2 = add (add (mul v 2) 1) 1).
  { intros v. unfold mul, add, wrap. Z.div_mod_to_equations. lia. }
  assert (Hdn : forall v, mul (sub v 1) 2 = sub (sub (mul v 2) 1) 1).
  { intros v. unfold mul, sub, wrap. Z.div_mod_to_equations. lia. }
  rewrite !Hup, !Hdn. auto.
Qed.

Lemma zoom_in_doubles_pan_steps_witness :
  zoomIn (navigateNext midZoom) = navigateNext (navigateNext (zoomIn midZoom)) /\
  zoomIn (navigateBack midZoom) = navigateBack (navigateBack (zoomIn midZoom)) /\
  zoomIn (moveDown midZoom) = moveDown (moveDown (zoomIn midZoom)) /\
  zoomIn (moveUp midZoom) = moveUp (moveUp (zoomIn midZoom)).
Proof.
  apply (zoom_in_doubles_pan_steps midZoom). simpl. lia.
Defined.

Lemma times_cons b b' bs : times b (b' :: bs) = times b [b'] + times b bs.
Proof.
  unfold times. destruct b, b'; cbn [filter length]; rewrite ?Nat2Z.inj_succ; lia.
Qed.

(** X4: a sequence of pan presses moves the centre by its net counts,
    modulo 2^64: [m.x] grows by the number of right presses less the number
    of left presses, [m.y] by the number of down presses less the number of
    up presses, and nothing else changes.  So the order of the presses
    does not matter and opposite presses cancel, on either axis. *)
Theorem pans_add_up :
  forall (bs : list button) (m : Map),
    forallb isPan bs = true ->
    is_int (x m) -> is_int (y m) ->
    pressAll bs m =
    {| pixels := pixels m; w := w m; h := h m; zoom := zoom m;
       x := wrap (x m + times NavigateNext bs - times NavigateBack bs);
       y := wrap (y m + times MoveDown bs - times MoveUp bs) |}.
Proof.
  induction bs as [| b bs IH]; intros m Hpan Hx Hy.
  - unfold pressAll, times. simpl. rewrite !Z.sub_0_r, !Z.add_0_r.
    rewrite !wrap_id by assumption. destruct m; reflexivity.
  - simpl in Hpan. apply andb_true_iff in Hpan as [Hb Hbs].
    destruct (press_is_int b m Hx Hy) as [Hx' Hy'].
    change (pressAll (b :: bs) m) with (pressAll bs (press b m)).
    rewrite (IH (press b m) Hbs Hx' Hy').
    rewrite (times_cons NavigateNext b bs), (times_cons NavigateBack b bs),
            (times_cons MoveDown b bs), (times_cons MoveUp b bs).
    generalize (times NavigateNext bs) (times NavigateBack bs)
               (times MoveDown bs) (times MoveUp bs).
    intros tn tb td tu.
    destruct b; try discriminate;
      cbv [times filter length Z.of_nat Pos.of_succ_nat press
           moveUp moveDown navigateBack navigateNext pixels w h zoom x y];
      f_equal; unfold add, sub, wrap; Z.div_mod_to_equations; lia.
Qed.

Lemma pans_add_up_witness :
  pressAll [MoveUp; NavigateNext; MoveDown; NavigateNext; MoveUp] midZoom =
  {| pixels := pixels midZoom; w := w midZoom; h := h midZoom; zoom := zoom midZoom;
     x := wrap (x midZoom
                + times NavigateNext [MoveUp; NavigateNext; MoveDown; NavigateNext; MoveUp]
                - times NavigateBack [MoveUp; NavigateNext; MoveDown; NavigateNext; MoveUp]);
     y := wrap (y midZoom
                + times MoveDown [MoveUp; NavigateNext; MoveDown; NavigateNext; MoveUp]
                - times MoveUp [MoveUp; NavigateNext; MoveDown; NavigateNext; MoveUp]) |}.
Proof.
  apply (pans_add_up [MoveUp; NavigateNext; MoveDown; NavigateNext; MoveUp] midZoom);
    [reflexivity | |]; unfold is_int, minInt, maxInt; simpl; lia.
Defined.

End Panning.

(** ** What a call leaves alone *)

Lemma store_length hp p b : length (store hp p b) = length hp.
Proof.
  revert p. induction hp as [| b0 hp IH]; intros [| p]; simpl; auto.
Qed.

Lemma nth_error_store_other hp p a b :
  a <> p -> nth_error (store hp p b) a = nth_error hp a.
Proof.
  revert p a. induction hp as [| b0 hp IH]; intros [| p] [| a] H; simpl;
    try reflexivity; try congruence.
  apply IH. congruence.
Qed.

Lemma Copy_NRect dst pos src sr : NRect (draw.Copy dst pos src sr) = NRect dst.
Proof.
  unfold draw.Copy, draw.DrawMask.
  destruct (draw.clip dst (Add sr (PtSub pos (Min sr))) src (Min sr)) as [r' sp'].
  destruct (Empty r'); reflexivity.
Qed.

Section Frame.

Variable E : Env.

Lemma same_buffers_refl (st : State E) : same_buffers st st.
Proof.
  split; [reflexivity |]. split; [reflexivity |].
  intros a b H. exists b. auto.
Qed.

Lemma drawTile_same_buffers l st0 tx ty (st : State E) :
  same_buffers st0 st -> same_buffers st0 (state_of (drawTile E l tx ty st)).
Proof.
  intros (Hthis & Hlen & Hbuf). unfold drawTile.
  destruct (offGrid l tx ty); [simpl; now repeat split |].
  destruct (getTile E (net st) tx ty (zoom (this st))) as [[src | err] net'];
    cbn [log this heap net trace].
  - destruct (pixels (this st)) as [p |] eqn:Hp; [| simpl; now repeat split].
    destruct (nth_error (heap st) p) as [dst |] eqn:Hd; [| simpl; now repeat split].
    unfold log, same_buffers. cbn [state_of this heap]. split; [exact Hthis |].
    split; [now rewrite store_length |].
    intros a b Ha. destruct (Hbuf a b Ha) as (b' & Hb' & Hr & Hsame).
    destruct (Nat.eq_dec a p) as [-> | Hne].
    + rewrite Hd in Hb'. inversion Hb'; subst b'.
      exists (draw.Copy dst (tilePos l tx ty) (scaledTile E l src) (tileRect l)).
      split; [now apply (nth_error_store _ _ dst) |].
      split; [now rewrite Copy_NRect |].
      intros Hneq. exfalso. apply Hneq. now rewrite <- Hthis, Hp.
    + exists b'. rewrite nth_error_store_other by exact Hne. auto.
  - simpl. now repeat split.
Qed.

Lemma drawTiles_same_buffers fuel l wpx hpx (st : State E) :
  same_buffers st (state_of (drawTiles E fuel l wpx hpx st)).
Proof.
  unfold drawTiles.
  apply for_loop_inv; [| apply same_buffers_refl].
  intros tx s Hs. apply for_loop_inv; [| exact Hs].
  intros ty s' Hs'. now apply drawTile_same_buffers.
Qed.

(** X5: however a call of [draw] ends, it leaves the zoom level, the
    centre and the stored size as they were; [m.pixels] is either what it
    was or, when the size check asked for it, the address of one new
    buffer; every buffer that existed still exists with the same bounds;
    and no buffer other than the one [m.pixels] ends up pointing to has a
    pixel changed. *)
Theorem draw_touches_only_its_buffer :
  forall (fuel : nat) (canvas : option float32) (wpx hpx : Z) (st : State E),
    let st' := state_of (draw E fuel canvas wpx hpx st) in
    (zoom (this st') = zoom (this st) /\ x (this st') = x (this st) /\
     y (this st') = y (this st) /\ w (this st') = w (this st) /\
     h (this st') = h (this st)) /\
    (pixels (this st') = pixels (this st) /\ length (heap st') = length (heap st) \/
     sizeChanged (this st) wpx hpx = true /\
     pixels (this st') = Some (length (heap st)) /\
     length (heap st') = S (length (heap st))) /\
    (forall a b, nth_error (heap st) a = Some b ->
       exists b', nth_error (heap st') a = Some b' /\ NRect b' = NRect b /\
                  (Some a <> pixels (this st') -> b' = b)).
Proof.
  intros fuel canvas wpx hpx st. cbv zeta. unfold draw, reallocate.
  destruct (sizeChanged (this st) wpx hpx) eqn:Hchg; cbv zeta.
  - destruct (NewNRGBA (Rect 0 0 wpx hpx)) as [buf |].
    + match goal with |- context [Panic ?s] => set (st1 := s) end.
      assert (H1 : forall s : State E, same_buffers st1 s ->
                (zoom (this s) = zoom (this st) /\ x (this s) = x (this st) /\
                 y (this s) = y (this st) /\ w (this s) = w (this st) /\
                 h (this s) = h (this st)) /\
                (pixels (this s) = pixels (this st) /\
                 length (heap s) = length (heap st) \/
                 true = true /\ pixels (this s) = Some (length (heap st)) /\
                 length (heap s) = S (length (heap st))) /\
                (forall a b, nth_error (heap st) a = Some b ->
                   exists b', nth_error (heap s) a = Some b' /\ NRect b' = NRect b /\
                              (Some a <> pixels (this s) -> b' = b))).
      { intros s (Hthis & Hlen & Hbuf). rewrite Hthis.
        split; [simpl; auto |]. split.
        - right. split; [reflexivity |]. split; [reflexivity |].
          rewrite Hlen. unfold st1. simpl. rewrite length_app. simpl. lia.
        - intros a b Ha.
          assert (Hlt : (a < length (heap st))%nat)
            by (apply nth_error_Some; congruence).
          destruct (Hbuf a b) as (b' & Hb' & Hr & Hsame).
          { unfold st1. simpl. rewrite nth_error_app1 by exact Hlt. exact Ha. }
          exists b'. split; [exact Hb' |]. split; [exact Hr |].
          intros _. apply Hsame. unfold st1. simpl. intros Heq.
          inversion Heq. lia. }
      destruct (zoom (this st1) <? 0).
      * apply H1, same_buffers_refl.
      * apply H1, drawTiles_same_buffers.
    + simpl. split; [auto |]. split; [left; auto |].
      intros a b Ha. exists b. auto.
  - assert (H1 : forall s : State E, same_buffers st s ->
              (zoom (this s) = zoom (this st) /\ x (this s) = x (this st) /\
               y (this s) = y (this st) /\ w (this s) = w (this st) /\
               h (this s) = h (this st)) /\
              (pixels (this s) = pixels (this st) /\
               length (heap s) = length (heap st) \/
               false = true /\ pixels (this s) = Some (length (heap st)) /\
               length (heap s) = S (length (heap st))) /\
              (forall a b, nth_error (heap st) a = Some b ->
                 exists b', nth_error (heap s) a = Some b' /\ NRect b' = NRect b /\
                            (Some a <> pixels (this s) -> b' = b))).
    { intros s (Hthis & Hlen & Hbuf). rewrite Hthis.
      split; [auto |]. split; [left; auto |]. exact Hbuf. }
    destruct (zoom (this st) <? 0).
    + apply H1, same_buffers_refl.
    + apply H1, drawTiles_same_buffers.
Qed.

End Frame.

(** ** Reachable states *)

Section Reachable.

Variable E : Env.

Lemma shape_same_buffers (st0 st : State E) :
  reachable_shape st0 -> same_buffers st0 st -> reachable_shape st.
Proof.
  intros (Hw & Hh & Hz & Hx & Hy & Hp) (Hthis & Hlen & _).
  unfold reachable_shape. rewrite Hthis, Hlen. auto 10.
Qed.

Lemma draw_shape fuel canvas wpx hpx (st : State E) :
  reachable_shape st ->
  reachable_shape (state_of (draw E fuel canvas wpx hpx st)).
Proof.
  intros Hst. unfold draw, reallocate.
  destruct (sizeChanged (this st) wpx hpx); cbv zeta.
  - destruct (NewNRGBA (Rect 0 0 wpx hpx)) as [buf |]; [| exact Hst].
    match goal with |- context [Panic ?s] => set (st1 := s) end.
    assert (H1 : reachable_shape st1).
    { destruct Hst as (Hw & Hh & Hz & Hx & Hy & _).
      unfold reachable_shape, st1. simpl. rewrite length_app. simpl.
      split; [exact Hw |]. split; [exact Hh |]. split; [exact Hz |].
      split; [exact Hx |]. split; [exact Hy |]. lia. }
    destruct (zoom (this st1) <? 0); [exact H1 |].
    apply (shape_same_buffers st1); [exact H1 | apply drawTiles_same_buffers].
  - destruct (zoom (this st) <? 0); [exact Hst |].
    apply (shape_same_buffers st); [exact Hst | apply drawTiles_same_buffers].
Qed.

Lemma press_shape b (st : State E) :
  reachable_shape st ->
  reachable_shape (mkState (press b (this st)) (heap st) (net st) (trace st)).
Proof.
  intros (Hw & Hh & Hz & Hx & Hy & Hp).
  destruct (press_frame b (this st)) as (Ep & Ew & Eh).
  destruct (press_is_int b (this st) Hx Hy) as [Hx' Hy'].
  pose proof (press_zoom_range b (this st) Hz) as Hz'.
  unfold reachable_shape. simpl. rewrite Ep, Ew, Eh. auto 10.
Qed.

Lemma session_shape fuel acts :
  forall st : State E,
    reachable_shape st -> reachable_shape (state_of (session E fuel acts st)).
Proof.
  induction acts as [| a acts IH]; intros st Hst; [exact Hst |].
  destruct a as [b | canvas wpx hpx]; simpl.
  - apply IH. now apply press_shape.
  - pose proof (draw_shape fuel canvas wpx hpx st Hst) as Hd.
    destruct (draw E fuel canvas wpx hpx st) as [s | s | s]; simpl in *;
      [now apply IH | exact Hd | exact Hd].
Qed.

(** X6: in every state a new widget can reach through button presses and
    calls of [draw], in any order and with any tile source, the stored
    size [m.w], [m.h] is still 0 by 0, the zoom level is within 0..19, the
    centre coordinates are [int]s and [m.pixels] is nil or the address of
    an existing buffer.  Hence, from any such state, every call of [draw]
    for a size other than 0 by 0 takes the reallocating branch. *)
Theorem reachable_states_keep_zero_size :
  forall (fuel : nat) (acts : list action) (ts : TileSource E),
    let st := state_of (session E fuel acts (fresh E ts)) in
    reachable_shape st /\
    (forall wpx hpx, wpx <> 0 \/ hpx <> 0 -> sizeChanged (this st) wpx hpx = true) /\
    sizeChanged (this st) 0 0 = false.
Proof.
  intros fuel acts ts st.
  assert (Hst : reachable_shape st).
  { apply session_shape. unfold reachable_shape, fresh, is_int, minInt, maxInt.
    simpl. repeat split; lia. }
  split; [exact Hst |].
  destruct Hst as (Hw & Hh & _). unfold sizeChanged. rewrite Hw, Hh. split.
  - intros wpx hpx Hne.
    destruct (0 =? wpx) eqn:E1; [| reflexivity].
    destruct (0 =? hpx) eqn:E2; [| reflexivity].
    apply Z.eqb_eq in E1, E2. lia.
  - reflexivity.
Qed.

End Reachable.

(** ** The scan of the grid *)

Lemma NoDup_map_inj {A B : Type} (f : A -> B) (l : list A) :
  (forall a b, f a = f b -> a = b) -> NoDup l -> NoDup (map f l).
Proof.
  intros Hinj. induction 1 as [| a l Hnin Hnd IH]; simpl; constructor; [| exact IH].
  intros Hin. apply in_map_iff in Hin as (b & Hb & Hin).
  apply Hinj in Hb. now subst.
Qed.

(** Distinct steps of a loop give distinct values of its variable. *)
Lemma indices_NoDup first n :
  is_int first -> Z.of_nat n <= 2 ^ 63 -> NoDup (indices first n).
Proof.
  intros Hf Hn. rewrite indices_iter by exact Hf.
  assert (H : forall k1 k2, In k1 (seq 0 n) -> In k2 (seq 0 n) ->
                wrap (first + Z.of_nat k1) = wrap (first + Z.of_nat k2) -> k1 = k2).
  { intros k1 k2 H1 H2 Heq. apply in_seq in H1, H2.
    destruct (wrap_spec (first + Z.of_nat k1)) as [q1 E1].
    destruct (wrap_spec (first + Z.of_nat k2)) as [q2 E2]. lia. }
  pose proof (seq_NoDup n 0) as Hnd. revert H Hnd.
  generalize (seq 0 n). intros l. induction l as [| k l IH]; intros H Hnd; simpl;
    constructor.
  - intros Hin. apply in_map_iff in Hin as (k' & Hk' & Hin).
    inversion Hnd; subst. assert (k' = k) by (apply H; simpl; auto). now subst.
  - inversion Hnd; subst. apply IH; [| assumption].
    intros k1 k2 Hk1 Hk2. apply H; now right.
Qed.

Lemma steps_bound l size :
  0 < tilePx l -> 0 <= size -> size + 2 * tilePx l <= maxInt ->
  Z.of_nat (steps l size) <= 2 ^ 63.
Proof.
  intros Hts Hsz Hmax. unfold steps, maxInt in *.
  destruct (size + tilePx l <? 0); [simpl; lia |].
  pose proof (Z.div_pos (size + tilePx l) (tilePx l) ltac:(lia) ltac:(lia)).
  pose proof (Z.div_le_upper_bound (size + tilePx l) (tilePx l) (size + tilePx l)
                ltac:(lia) ltac:(nia)).
  rewrite Z2Nat.id by lia. lia.
Qed.

Lemma gridTiles_cons l z tx xs ys :
  gridTiles l z (tx :: xs) ys =
  map (fun ty => (tx, ty, z)) (filter (fun ty => negb (offGrid l tx ty)) ys)
  ++ gridTiles l z xs ys.
Proof. reflexivity. Qed.

Lemma gridTiles_In l z xs ys t :
  In t (gridTiles l z xs ys) ->
  exists tx ty, t = (tx, ty, z) /\ In tx xs /\ In ty ys /\ offGrid l tx ty = false.
Proof.
  unfold gridTiles. intros H. apply in_flat_map in H as (tx & Hx & H).
  apply in_map_iff in H as (ty & <- & H). apply filter_In in H as [Hy Hg].
  exists tx, ty. repeat split; auto. now apply negb_true_iff in Hg.
Qed.

Lemma gridTiles_NoDup l z xs ys :
  NoDup xs -> NoDup ys -> NoDup (gridTiles l z xs ys).
Proof.
  intros Hxs Hys. induction Hxs as [| tx xs Hnin Hnd IH]; [constructor |].
  rewrite gridTiles_cons. apply NoDup_app.
  - apply NoDup_map_inj; [| now apply NoDup_filter].
    intros a b H. now inversion H.
  - exact IH.
  - intros t Ht Ht'. apply in_map_iff in Ht as (ty & <- & _).
    apply gridTiles_In in Ht' as (tx' & ty' & Heq & Hx' & _).
    inversion Heq; subst. contradiction.
Qed.

Lemma gridTiles_length l z xs ys :
  (length (gridTiles l z xs ys) <= length xs * length ys)%nat.
Proof.
  induction xs as [| tx xs IH]; [simpl; lia |].
  rewrite gridTiles_cons, length_app, length_map.
  pose proof (filter_length_le (fun ty => negb (offGrid l tx ty)) ys). simpl. lia.
Qed.

Section Scan.

Variable E : Env.

Lemma prefix_refl {A : Type} (l : list A) : prefix l l.
Proof. exists []. now rewrite app_nil_r. Qed.

Lemma prefix_app_r {A : Type} (l1 l2 l3 : list A) : prefix l1 l2 -> prefix l1 (l2 ++ l3).
Proof. intros [rest ->]. exists (rest ++ l3). now rewrite app_assoc. Qed.

Lemma prefix_app_l {A : Type} (l l1 l2 : list A) : prefix l1 l2 -> prefix (l ++ l1) (l ++ l2).
Proof. intros [rest ->]. exists rest. now rewrite app_assoc. Qed.

Lemma scanned_nil (st : State E) : scanned st (Ok st) [].
Proof.
  split; [reflexivity |]. split; [reflexivity |].
  exists []. rewrite app_nil_r. split; [reflexivity |].
  split; [apply prefix_refl | auto].
Qed.

(** A scan followed, if it returned, by another. *)
Lemma scanned_then (st : State E) r1 t1 (k : State E -> res (State E)) t2 :
  scanned st r1 t1 ->
  (forall s1, r1 = Ok s1 -> scanned s1 (k s1) t2) ->
  scanned st (match r1 with
              | Ok s1 => k s1
              | Panic s => Panic s
              | OutOfFuel s => OutOfFuel s
              end) (t1 ++ t2).
Proof.
  intros (Hfin & Hthis & evs & Htr & Hpre & Hret) Hk.
  destruct r1 as [s1 | s1 | s1]; simpl in *.
  - destruct (Hk s1 eq_refl) as (Hfin2 & Hthis2 & evs2 & Htr2 & Hpre2 & Hret2).
    destruct (Hret eq_refl) as [Hf Hn].
    split; [exact Hfin2 |]. split; [congruence |].
    exists (evs ++ evs2). split; [rewrite Htr2, Htr; now rewrite app_assoc |].
    rewrite fetched_app, copies_app, errors_app, Hf. split.
    + now apply prefix_app_l.
    + intros Hr. destruct (Hret2 Hr) as [Hf2 Hn2]. rewrite Hf2.
      split; [reflexivity |]. rewrite !length_app. lia.
  - split; [reflexivity |]. split; [exact Hthis |].
    exists evs. split; [exact Htr |]. split; [now apply prefix_app_r | discriminate].
  - discriminate.
Qed.

Lemma drawTile_scanned l tx ty (st : State E) :
  scanned st (drawTile E l tx ty st)
    (if offGrid l tx ty then [] else [(tx, ty, zoom (this st))]).
Proof.
  unfold drawTile. destruct (offGrid l tx ty); [apply scanned_nil |].
  destruct (getTile E (net st) tx ty (zoom (this st))) as [[src | err] net'];
    unfold log; cbn [this heap net trace].
  - destruct (pixels (this st)) as [p |].
    + destruct (nth_error (heap st) p) as [dst |].
      * split; [reflexivity |]. split; [reflexivity |].
        exists [Fetch tx ty (zoom (this st)); Copied p (tilePos l tx ty) (tileRect l)].
        cbn [state_of trace]. rewrite <- app_assoc.
        split; [reflexivity |]. split; [apply prefix_refl | auto].
      * split; [reflexivity |]. split; [reflexivity |].
        exists [Fetch tx ty (zoom (this st))]. cbn [state_of trace].
        split; [reflexivity |]. split; [apply prefix_refl | discriminate].
    + split; [reflexivity |]. split; [reflexivity |].
      exists [Fetch tx ty (zoom (this st))]. cbn [state_of trace].
      split; [reflexivity |]. split; [apply prefix_refl | discriminate].
  - split; [reflexivity |]. split; [reflexivity |].
    exists [Fetch tx ty (zoom (this st)); LogError err].
    cbn [state_of trace]. rewrite <- app_assoc.
    split; [reflexivity |]. split; [apply prefix_refl | auto].
Qed.

Lemma scanned_this (st : State E) r tiles s :
  scanned st r tiles -> r = Ok s -> this s = this st.
Proof. intros (_ & H & _) ->. exact H. Qed.

Lemma row_scanned l tx ys :
  forall st : State E,
    scanned st (for_each (fun ty => drawTile E l tx ty) ys st)
      (map (fun ty => (tx, ty, zoom (this st)))
           (filter (fun ty => negb (offGrid l tx ty)) ys)).
Proof.
  induction ys as [| ty ys IH]; intros st; [apply scanned_nil |].
  cbn [for_each].
  pose proof (drawTile_scanned l tx ty st) as H1.
  pose proof (scanned_then st _ _
                (fun s1 => for_each (fun ty => drawTile E l tx ty) ys s1)
                (map (fun ty => (tx, ty, zoom (this st)))
                     (filter (fun ty => negb (offGrid l tx ty)) ys)) H1) as H.
  cbn [filter]. destruct (offGrid l tx ty); cbn [negb map app] in *; apply H;
    intros s1 Hs1; rewrite <- (scanned_this _ _ _ _ H1 Hs1); apply IH.
Qed.

Lemma grid_scanned l xs ys :
  forall st : State E,
    scanned st
      (for_each (fun tx => for_each (fun ty => drawTile E l tx ty) ys) xs st)
      (gridTiles l (zoom (this st)) xs ys).
Proof.
  induction xs as [| tx xs IH]; intros st; [apply scanned_nil |].
  cbn [for_each]. rewrite gridTiles_cons.
  pose proof (row_scanned l tx ys st) as H1.
  apply (scanned_then st _ _
           (fun s1 => for_each (fun tx => for_each (fun ty => drawTile E l tx ty) ys)
                        xs s1)); [exact H1 |].
  intros s1 Hs1. rewrite <- (scanned_this _ _ _ _ H1 Hs1). apply IH.
Qed.

End Scan.

Lemma indices_length i n : length (indices i n) = n.
Proof. revert i. induction n as [| n IH]; intros i; simpl; auto. Qed.

Section ScanOfDraw.

Variable E : Env.

Lemma columns_rows_NoDup canvas wpx hpx m :
  in_range canvas wpx hpx ->
  NoDup (columns (locals canvas wpx hpx m) wpx) /\
  NoDup (rows (locals canvas wpx hpx m) hpx).
Proof.
  intros (Hw & Hh & Hwm & Hhm).
  pose proof (canvasScale_pos canvas) as Hs.
  assert (Hts : tilePx (locals canvas wpx hpx m) = 256 * canvasScale canvas)
    by (apply locals_tilePx; lia).
  destruct (locals_first_is_int canvas wpx hpx m) as [Hfx Hfy].
  split; apply indices_NoDup; try assumption; apply steps_bound; lia.
Qed.

(** X7: inside the operating range the two loops of [draw] stop by
    themselves, whatever the state and whatever the tile source answers:
    with a budget of [enough] the call ends normally or in a panic, never
    by exhausting the budget, and a larger budget gives the same result. *)
Theorem draw_stops_by_itself :
  forall (fuel fuel' : nat) (canvas : option float32) (wpx hpx : Z) (st : State E),
    in_range canvas wpx hpx ->
    (enough (locals canvas wpx hpx (this st)) wpx hpx <= fuel)%nat ->
    (enough (locals canvas wpx hpx (this st)) wpx hpx <= fuel')%nat ->
    finished (draw E fuel canvas wpx hpx st) = true /\
    draw E fuel canvas wpx hpx st = draw E fuel' canvas wpx hpx st.
Proof.
  intros fuel fuel' canvas wpx hpx st Hrange Hfuel Hfuel'. unfold draw.
  pose proof (reallocate_frame E wpx hpx st) as Hr. cbv zeta in Hr.
  destruct (reallocate E wpx hpx st) as [st1 | st1 | st1] eqn:Hre; simpl in Hr;
    destruct Hr as (_ & _ & _ & _ & Hz1 & Hx1 & Hy1).
  - destruct (zoom (this st1) <? 0); [split; reflexivity |].
    pose proof (locals_frame canvas wpx hpx (this st) (this st1) Hz1 Hx1 Hy1) as Hl.
    rewrite <- Hl in Hfuel, Hfuel'.
    rewrite (drawTiles_unroll E fuel canvas wpx hpx (this st1) st1 Hrange Hfuel).
    rewrite (drawTiles_unroll E fuel' canvas wpx hpx (this st1) st1 Hrange Hfuel').
    split; [| reflexivity].
    now destruct (grid_scanned E (locals canvas wpx hpx (this st1))
                    (columns (locals canvas wpx hpx (this st1)) wpx)
                    (rows (locals canvas wpx hpx (this st1)) hpx) st1) as [Hfin _].
  - split; reflexivity.
  - unfold reallocate in Hre.
    destruct (sizeChanged (this st) wpx hpx); [| discriminate].
    destruct (NewNRGBA (Rect 0 0 wpx hpx)); discriminate.
Qed.

(** X8: inside the operating range, whatever the tile source answers, the
    tiles a call of [draw] fetches are a beginning of the list of
    candidates on the grid taken column by column and, in each column, row
    by row; no tile is fetched twice; there are at most as many fetches
    as the loops have steps; and when the call returns every such candidate
    was fetched and each fetch was answered by exactly one copy or one
    logged error. *)
Theorem draw_fetches_grid_in_scan_order :
  forall (fuel : nat) (canvas : option float32) (wpx hpx : Z) (st : State E),
    in_range canvas wpx hpx ->
    let l := locals canvas wpx hpx (this st) in
    (enough l wpx hpx <= fuel)%nat ->
    let r := draw E fuel canvas wpx hpx st in
    let grid := gridTiles l (zoom (this st)) (columns l wpx) (rows l hpx) in
    exists evs,
      trace (state_of r) = trace st ++ evs /\
      prefix (fetched evs) grid /\
      NoDup (fetched evs) /\
      (length (fetched evs) <= steps l wpx * steps l hpx)%nat /\
      (returns r = true ->
       fetched evs = grid /\
       (length (copies evs) + length (errors evs) = length grid)%nat).
Proof.
  intros fuel canvas wpx hpx st Hrange l Hfuel r grid.
  destruct (columns_rows_NoDup canvas wpx hpx (this st) Hrange) as [Hnx Hny].
  fold l in Hnx, Hny.
  pose proof (gridTiles_NoDup l (zoom (this st)) _ _ Hnx Hny) as Hnd. fold grid in Hnd.
  pose proof (gridTiles_length l (zoom (this st)) (columns l wpx) (rows l hpx)) as Hlen.
  fold grid in Hlen. unfold columns, rows in Hlen. rewrite !indices_length in Hlen.
  assert (Hfin : forall evs : list (event E), prefix (fetched evs) grid ->
            NoDup (fetched evs) /\
            (length (fetched evs) <= steps l wpx * steps l hpx)%nat).
  { intros evs [rest Hrest]. split.
    - rewrite Hrest in Hnd. now apply NoDup_app_remove_r in Hnd.
    - rewrite Hrest, length_app in Hlen. lia. }
  assert (Hnil : prefix (@fetched E []) grid) by (exists grid; reflexivity).
  subst r. unfold draw.
  pose proof (reallocate_frame E wpx hpx st) as Hr. cbv zeta in Hr.
  destruct (reallocate E wpx hpx st) as [st1 | st1 | st1]; simpl in Hr;
    destruct Hr as (Htr & _ & _ & _ & Hz1 & Hx1 & Hy1);
    try (exists []; rewrite app_nil_r; simpl;
         split; [exact Htr |]; split; [exact Hnil |];
         split; [constructor |]; split; [lia | discriminate]).
  destruct (zoom (this st1) <? 0).
  { exists []. rewrite app_nil_r. simpl.
    split; [exact Htr |]. split; [exact Hnil |].
    split; [constructor |]. split; [lia | discriminate]. }
  pose proof (locals_frame canvas wpx hpx (this st) (this st1) Hz1 Hx1 Hy1) as Hl.
  fold l in Hl. rewrite Hl. unfold l.
  rewrite (drawTiles_unroll E fuel canvas wpx hpx (this st) st1 Hrange Hfuel). fold l.
  destruct (grid_scanned E l (columns l wpx) (rows l hpx) st1)
    as (_ & _ & evs & Hevs & Hpre & Hret).
  rewrite Hz1 in Hpre, Hret. fold grid in Hpre, Hret.
  exists evs. split; [now rewrite Hevs, Htr |]. split; [exact Hpre |].
  destruct (Hfin evs Hpre) as [H1 H2]. auto.
Qed.

End ScanOfDraw.

Lemma draw_stops_by_itself_witness :
  finished (draw redServer 7 None 1024 768 atZoom2) = true /\
  draw redServer 7 None 1024 768 atZoom2 = draw redServer 12 None 1024 768 atZoom2.
Proof.
  apply (draw_stops_by_itself redServer 7 12 None 1024 768 atZoom2).
  - unfold in_range, maxInt. simpl. lia.
  - vm_compute. lia.
  - vm_compute. lia.
Defined.

Lemma draw_fetches_grid_in_scan_order_witness :
  in_range None 1024 768 /\
  exists evs,
    trace (state_of (draw redServer 7 None 1024 768 atZoom2)) = trace atZoom2 ++ evs /\
    NoDup (fetched evs) /\
    (length (fetched evs) <=
       steps (locals None 1024 768 (this atZoom2)) 1024 *
       steps (locals None 1024 768 (this atZoom2)) 768)%nat.
Proof.
  assert (Hrange : in_range None 1024 768) by (unfold in_range, maxInt; simpl; lia).
  split; [exact Hrange |].
  destruct (draw_fetches_grid_in_scan_order redServer 7 None 1024 768 atZoom2 Hrange)
    as (evs & Htr & _ & Hnd & Hlen & _).
  - vm_compute. lia.
  - exists evs. auto.
Defined.

(** ** A call in normal operation *)

Section Loops2.

Context {St : Type}.

Lemma for_each_returns (P : St -> Prop) (body : Z -> St -> res St) l :
  (forall i s, P s -> returns (body i s) = true /\ P (state_of (body i s))) ->
  forall s, P s ->
    returns (for_each body l s) = true /\ P (state_of (for_each body l s)).
Proof.
  intros Hbody. induction l as [| i l IH]; intros s Hs; simpl; [auto |].
  destruct (Hbody i s Hs) as [Hr Hp].
  destruct (body i s) as [s' | s' | s']; try discriminate.
  apply IH. exact Hp.
Qed.

End Loops2.

Section NormalOperation.

Variable E : Env.

Lemma drawing_refl (st : State E) : drawing st st.
Proof.
  split; [apply same_buffers_refl |].
  exists []. rewrite app_nil_r. split; [reflexivity | intros ? ? ? []].
Qed.

Lemma drawTile_drawing l st0 tx ty (st : State E) p0 :
  pixels (this st0) = Some p0 -> (p0 < length (heap st0))%nat ->
  drawing st0 st ->
  returns (drawTile E l tx ty st) = true /\
  drawing st0 (state_of (drawTile E l tx ty st)).
Proof.
  intros Hp0 Hlt [Hsame (evs & Htr & Hcp)]. split.
  - destruct Hsame as (Hthis & Hlen & _). unfold drawTile.
    destruct (offGrid l tx ty); [reflexivity |].
    destruct (getTile E (net st) tx ty (zoom (this st))) as [[src | err] net'];
      [| reflexivity].
    cbn [log this heap net trace]. rewrite Hthis, Hp0.
    destruct (nth_error (heap st) p0) eqn:Hn; [reflexivity |].
    apply nth_error_None in Hn. lia.
  - split; [now apply drawTile_same_buffers |].
    destruct (drawTile_events E l tx ty st) as [_ (evs' & Htr' & _ & Hc)].
    exists (evs ++ evs'). split; [rewrite Htr', Htr; now rewrite app_assoc |].
    intros p pos sr Hin. rewrite copies_app in Hin.
    apply in_app_or in Hin as [Hin | Hin]; [now apply (Hcp p pos sr) |].
    destruct (Hc p pos sr Hin) as (_ & Hp & _).
    destruct Hsame as (Hthis & _). now rewrite <- Hthis, Hp.
Qed.

(** X9: inside the operating range, a call of [draw] that takes the
    reallocating branch (every call for a size other than the stored one)
    at a zoom level [>= 0] returns normally whatever the tile source
    answers; the image returned is the new buffer, at the first address
    not yet in use, with bounds (0, 0)-(w, h) as requested; every copy of
    the call went into that buffer; and the buffers that existed before
    are untouched. *)
Theorem draw_returns_the_new_buffer :
  forall (fuel : nat) (canvas : option float32) (wpx hpx : Z) (st : State E),
    in_range canvas wpx hpx ->
    allocatable wpx hpx ->
    0 <= zoom (this st) ->
    sizeChanged (this st) wpx hpx = true ->
    (enough (locals canvas wpx hpx (this st)) wpx hpx <= fuel)%nat ->
    exists (st' : State E) (b : NRGBA) (evs : list (event E)),
      draw E fuel canvas wpx hpx st = Ok st' /\
      pixels (this st') = Some (length (heap st)) /\
      returned st' = Some b /\
      NRect b = Rect 0 0 wpx hpx /\ Dx (NRect b) = wpx /\ Dy (NRect b) = hpx /\
      heap st' = heap st ++ [b] /\
      trace st' = trace st ++ evs /\
      (forall p pos sr, In (p, pos, sr) (copies evs) -> p = length (heap st)).
Proof.
  intros fuel canvas wpx hpx st Hrange Halloc Hz Hchg Hfuel.
  destruct (NewNRGBA_allocatable wpx hpx Halloc) as (Hnew & Hdx & Hdy).
  unfold draw, reallocate. rewrite Hchg, Hnew. cbv beta iota zeta.
  match goal with |- context [Panic ?s] => set (st1 := s) end.
  change (zoom (this st1)) with (zoom (this st)).
  destruct (zoom (this st) <? 0) eqn:Hneg; [apply Z.ltb_lt in Hneg; lia |].
  assert (Hl : locals canvas wpx hpx (this st1) = locals canvas wpx hpx (this st))
    by (apply locals_frame; reflexivity).
  rewrite Hl, (drawTiles_unroll E fuel canvas wpx hpx (this st) st1 Hrange Hfuel).
  set (l := locals canvas wpx hpx (this st)).
  assert (Hp1 : pixels (this st1) = Some (length (heap st))) by reflexivity.
  assert (Hlt : (length (heap st) < length (heap st1))%nat)
    by (unfold st1; simpl; rewrite length_app; simpl; lia).
  destruct (for_each_returns (drawing st1)
              (fun tx => for_each (fun ty => drawTile E l tx ty) (rows l hpx))
              (columns l wpx)) with (s := st1) as [Hret Hdr].
  { intros tx s Hs. apply for_each_returns; [| exact Hs].
    intros ty s' Hs'. now apply (drawTile_drawing l st1 tx ty s' (length (heap st))). }
  { apply drawing_refl. }
  destruct (for_each (fun tx => for_each (fun ty => drawTile E l tx ty) (rows l hpx))
              (columns l wpx) st1) as [st' | st' | st']; try discriminate.
  simpl in Hdr. destruct Hdr as [(Hthis & Hlen & Hbuf) (evs & Htr & Hcp)].
  destruct (Hbuf (length (heap st)) (blank (Rect 0 0 wpx hpx)))
    as (b & Hb & Hrect & _).
  { unfold st1. simpl. apply nth_error_last. }
  exists st', b, evs. split; [reflexivity |].
  split; [now rewrite Hthis |].
  split; [unfold returned; now rewrite Hthis, Hp1 |].
  split; [exact Hrect |]. rewrite Hrect. split; [exact Hdx |]. split; [exact Hdy |].
  split.
  - apply nth_error_split in Hb as (h1 & h2 & Hh & Hl1).
    assert (Hh2 : h2 = []).
    { destruct h2; [reflexivity |]. exfalso.
      assert (Hl2 : length (heap st') = length (heap st1)) by exact Hlen.
      rewrite Hh in Hl2. unfold st1 in Hl2. simpl in Hl2.
      rewrite !length_app in Hl2. simpl in Hl2. lia. }
    subst h2. rewrite Hh. f_equal.
    apply nth_ext with (d := b) (d' := b); [exact Hl1 |].
    intros n Hn. rewrite Hl1 in Hn.
    destruct (nth_error (heap st) n) as [bn |] eqn:Hbn;
      [| apply nth_error_None in Hbn; lia].
    destruct (Hbuf n bn) as (bn' & Hbn' & _ & Hsame).
    { unfold st1. simpl. now rewrite nth_error_app1. }
    rewrite Hh in Hbn'. rewrite nth_error_app1 in Hbn' by lia.
    assert (bn' = bn).
    { apply Hsame. rewrite Hp1. intros Heq. inversion Heq. lia. }
    subst bn'. apply nth_error_nth with (d := b) in Hbn, Hbn'. congruence.
  - split; [exact Htr |].
    intros p pos sr Hin. specialize (Hcp p pos sr Hin).
    rewrite Hp1 in Hcp. now inversion Hcp.
Qed.

End NormalOperation.

Lemma draw_returns_the_new_buffer_witness :
  exists (st' : State redServer) (b : NRGBA) (evs : list (event redServer)),
    draw redServer 7 None 1024 768 atZoom2 = Ok st' /\
    pixels (this st') = Some (length (heap atZoom2)) /\
    returned st' = Some b /\
    NRect b = Rect 0 0 1024 768 /\ Dx (NRect b) = 1024 /\ Dy (NRect b) = 768 /\
    heap st' = heap atZoom2 ++ [b] /\
    trace st' = trace atZoom2 ++ evs /\
    (forall p pos sr, In (p, pos, sr) (copies evs) -> p = length (heap atZoom2)).
Proof.
  apply (draw_returns_the_new_buffer redServer 7 None 1024 768 atZoom2).
  - unfold in_range, maxInt. simpl. lia.
  - unfold allocatable, maxInt. lia.
  - simpl. lia.
  - reflexivity.
  - vm_compute. lia.
Defined.

(** ** A call without a buffer *)

Section NilBuffer.

Variable E : Env.

Hypothesis served : always_served E.

Lemma drawTile_nil l tx ty (st : State E) :
  pixels (this st) = None -> offGrid l tx ty = false ->
  exists s', drawTile E l tx ty st = Panic s' /\
             trace s' = trace st ++ [Fetch tx ty (zoom (this st))].
Proof.
  intros Hp Hg. unfold drawTile. rewrite Hg.
  destruct (served (net st) tx ty (zoom (this st))) as (src & ts' & ->).
  cbn [log this heap net trace]. rewrite Hp. eexists. split; reflexivity.
Qed.

Lemma row_nil l tx ys (st : State E) :
  pixels (this st) = None ->
  match filter (fun ty => negb (offGrid l tx ty)) ys with
  | [] => for_each (fun ty => drawTile E l tx ty) ys st = Ok st
  | ty :: _ =>
      exists s', for_each (fun ty => drawTile E l tx ty) ys st = Panic s' /\
                 trace s' = trace st ++ [Fetch tx ty (zoom (this st))]
  end.
Proof.
  intros Hp. induction ys as [| ty ys IH]; [reflexivity |].
  cbn [filter for_each]. destruct (offGrid l tx ty) eqn:Hg; cbn [negb].
  - rewrite drawTile_offGrid by exact Hg. exact IH.
  - destruct (drawTile_nil l tx ty st Hp Hg) as (s' & -> & Htr).
    exists s'. auto.
Qed.

Lemma grid_nil l xs ys (st : State E) :
  pixels (this st) = None ->
  match gridTiles l (zoom (this st)) xs ys with
  | [] =>
      for_each (fun tx => for_each (fun ty => drawTile E l tx ty) ys) xs st = Ok st
  | (tx, ty, z) :: _ =>
      exists s',
        for_each (fun tx => for_each (fun ty => drawTile E l tx ty) ys) xs st
          = Panic s' /\
        trace s' = trace st ++ [Fetch tx ty z]
  end.
Proof.
  intros Hp. induction xs as [| tx xs IH]; [reflexivity |].
  rewrite gridTiles_cons. cbn [for_each].
  pose proof (row_nil l tx ys st Hp) as Hrow.
  destruct (filter (fun ty => negb (offGrid l tx ty)) ys) as [| ty rest].
  - rewrite Hrow. exact IH.
  - destruct Hrow as (s' & -> & Htr). exists s'. auto.
Qed.

(** X10: a call of [draw] that keeps a nil [m.pixels] (the size asked for
    is the stored one, as for 0 by 0 on a new widget) cannot copy: with a
    tile source that always serves, inside the operating range, the call
    panics in [draw.Copy] right after the first fetch, that of the first
    candidate on the grid; it returns normally, with nothing fetched and
    nothing changed, only when no candidate is on the grid. *)
Theorem draw_panics_on_nil_buffer :
  forall (fuel : nat) (canvas : option float32) (wpx hpx : Z) (st : State E),
    in_range canvas wpx hpx ->
    0 <= zoom (this st) ->
    pixels (this st) = None ->
    sizeChanged (this st) wpx hpx = false ->
    (enough (locals canvas wpx hpx (this st)) wpx hpx <= fuel)%nat ->
    match gridTiles (locals canvas wpx hpx (this st)) (zoom (this st))
            (columns (locals canvas wpx hpx (this st)) wpx)
            (rows (locals canvas wpx hpx (this st)) hpx) with
    | [] => draw E fuel canvas wpx hpx st = Ok st
    | (tx, ty, z) :: _ =>
        exists st', draw E fuel canvas wpx hpx st = Panic st' /\
                    trace st' = trace st ++ [Fetch tx ty z]
    end.
Proof.
  intros fuel canvas wpx hpx st Hrange Hz Hp Hchg Hfuel.
  unfold draw, reallocate. rewrite Hchg. cbv beta iota zeta.
  destruct (zoom (this st) <? 0) eqn:Hneg; [apply Z.ltb_lt in Hneg; lia |].
  rewrite (drawTiles_unroll E fuel canvas wpx hpx (this st) st Hrange Hfuel).
  apply grid_nil. exact Hp.
Qed.

End NilBuffer.

Lemma draw_panics_on_nil_buffer_witness :
  exists st', draw redServer 5 None 0 0 (fresh redServer tt) = Panic st' /\
              trace st' = trace (fresh redServer tt) ++ [Fetch 0 0 0].
Proof.
  assert (Hs : always_served redServer)
    by (intros ts tx ty z; exists redTile, ts; reflexivity).
  assert (Hrange : in_range None 0 0) by (unfold in_range, maxInt; simpl; lia).
  exact (draw_panics_on_nil_buffer redServer Hs 5 None 0 0 (fresh redServer tt)
           Hrange ltac:(simpl; lia) eq_refl eq_refl ltac:(vm_compute; lia)).
Defined.

(** ** The picture a call draws *)

Lemma painted_iff l dst img tx ty px py :
  0 <= tilePx l ->
  (inside px py (painted l dst img tx ty) <->
   inside px py (destRect l tx ty) /\ inside px py (NRect dst) /\
   inside px py (Add (Bounds img) (tilePos l tx ty))).
Proof.
  intros Hts. unfold painted, draw.clip. cbn [fst].
  rewrite !inside_Intersect.
  rewrite (destRect_Min l tx ty Hts), (tileRect_nonneg l Hts). cbn [Min].
  destruct (tilePos_is_int l tx ty) as [Hx Hy].
  replace (PtSub (tilePos l tx ty) (Pt 0 0)) with (tilePos l tx ty); [tauto |].
  destruct (tilePos l tx ty) as [qx qy]. unfold PtSub. simpl in *. unfold sub.
  rewrite !Z.sub_0_r, !wrap_id by assumption. reflexivity.
Qed.

Lemma painted_bounds l d1 d2 img tx ty :
  NRect d1 = NRect d2 -> painted l d1 img tx ty = painted l d2 img tx ty.
Proof. intros H. unfold painted, draw.clip. now rewrite H. Qed.

(** Two different tiles the loops visit are placed apart. *)
Lemma destRect_disjoint canvas wpx hpx m tx1 ty1 tx2 ty2 px py :
  in_range canvas wpx hpx ->
  let l := locals canvas wpx hpx m in
  In tx1 (columns l wpx) -> In ty1 (rows l hpx) ->
  In tx2 (columns l wpx) -> In ty2 (rows l hpx) ->
  tx1 <> tx2 \/ ty1 <> ty2 ->
  inside px py (destRect l tx1 ty1) -> inside px py (destRect l tx2 ty2) -> False.
Proof.
  intros (Hw & Hh & Hwm & Hhm) l Hc1 Hr1 Hc2 Hr2 Hne Hp1 Hp2.
  pose proof (canvasScale_pos canvas) as Hs.
  assert (Hts : tilePx l = 256 * canvasScale canvas) by (apply locals_tilePx; lia).
  destruct (locals_first_is_int canvas wpx hpx m) as [Hfx Hfy].
  fold l in Hfx, Hfy.
  apply in_indices_steps in Hc1 as (kx1 & Hkx1 & ->); try assumption; try lia.
  apply in_indices_steps in Hc2 as (kx2 & Hkx2 & ->); try assumption; try lia.
  apply in_indices_steps in Hr1 as (ky1 & Hky1 & ->); try assumption; try lia.
  apply in_indices_steps in Hr2 as (ky2 & Hky2 & ->); try assumption; try lia.
  apply PtIn_spec in Hp1, Hp2.
  unfold destRect in Hp1, Hp2.
  rewrite tileRect_nonneg in Hp1, Hp2 by lia.
  simpl in Hp1, Hp2.
  destruct Hp1 as [Hx1 Hy1], Hp2 as [Hx2 Hy2].
  destruct (Z.eq_dec kx1 kx2) as [Ekx | Nkx].
  - destruct (Z.eq_dec ky1 ky2) as [Eky | Nky]; [subst; lia |].
    apply (axis_disjoint (tilePx l) hpx (midTileY l) (my l) (firstTileY l) ky1 ky2 py);
      try assumption; lia.
  - apply (axis_disjoint (tilePx l) wpx (midTileX l) (mx l) (firstTileX l) kx1 kx2 px);
      try assumption; lia.
Qed.

Lemma over_blank s : valid16 s -> draw.over (rgba64 0 0 0 0) s = s.
Proof.
  destruct s as [sr sg sb sa]. simpl. intros (Hr & Hg & Hb & Ha).
  now rewrite !Z.mod_small by lia.
Qed.

Section Picture.

Variable E : Env.
Variable canvas : option float32.
Variables wpx hpx : Z.
Variable m : Map.
Variable answer : Z -> Z -> Image + FetchError E.
Variable p0 : ptr.

Hypothesis Hrange : in_range canvas wpx hpx.

(** The tile source answers by the coordinates alone. *)
Hypothesis pure :
  forall ts tx ty, fst (getTile E ts tx ty (zoom m)) = answer tx ty.

Let l := locals canvas wpx hpx m.
Let R := Rect 0 0 wpx hpx.

Lemma tilePx_pos : 0 < tilePx l.
Proof.
  destruct Hrange as (Hw & Hh & Hwm & Hhm).
  pose proof (canvasScale_pos canvas) as Hs.
  unfold l. rewrite locals_tilePx; lia.
Qed.

Lemma picture_ext D D' b :
  (forall a c, D a c <-> D' a c) ->
  picture E l R answer D b -> picture E l R answer D' b.
Proof.
  intros Hext [Hrect Hpix]. split; [exact Hrect |].
  intros px py. destruct (Hpix px py) as [H1 H2]. split.
  - intros tx ty src Hd. apply H1. now apply Hext.
  - intros H. apply H2. intros tx ty src Hd. apply H. now apply Hext.
Qed.

Lemma showing_ext D D' (s : State E) :
  (forall a c, D a c <-> D' a c) ->
  showing E l R answer p0 (zoom m) D s -> showing E l R answer p0 (zoom m) D' s.
Proof.
  intros Hext (Hp & Hz & b & Hb & Hpic).
  split; [exact Hp |]. split; [exact Hz |].
  exists b. split; [exact Hb | now apply (picture_ext D)].
Qed.

(** The picture when one more tile has been through the body of the
    loop. *)
Lemma drawTile_showing (D : Z -> Z -> Prop) tx ty (s : State E) :
  In tx (columns l wpx) -> In ty (rows l hpx) ->
  (forall a c, D a c -> In a (columns l wpx) /\ In c (rows l hpx)) ->
  ~ D tx ty ->
  showing E l R answer p0 (zoom m) D s ->
  exists s', drawTile E l tx ty s = Ok s' /\
    showing E l R answer p0 (zoom m) (fun a c => D a c \/ (a = tx /\ c = ty)) s'.
Proof.
  intros Hcx Hcy Hsub Hnew (Hp & Hz & b & Hb & Hrect & Hpix).
  pose proof tilePx_pos as Hts.
  assert (Hskip : forall s' : State E,
            pixels (this s') = Some p0 -> zoom (this s') = zoom m ->
            nth_error (heap s') p0 = Some b ->
            (forall src, offGrid l tx ty = false -> answer tx ty = inl src -> False) ->
            showing E l R answer p0 (zoom m)
              (fun a c => D a c \/ (a = tx /\ c = ty)) s').
  { intros s' Hp' Hz' Hb' Hno.
    split; [exact Hp' |]. split; [exact Hz' |]. exists b. split; [exact Hb' |].
    split; [exact Hrect |]. intros px py. destruct (Hpix px py) as [H1 H2]. split.
    - intros a c src [Hd | [-> ->]] Hg Ha; [now apply H1 | now destruct (Hno src)].
    - intros H. apply H2. intros a c src Hd. apply H. now left. }
  unfold drawTile. destruct (offGrid l tx ty) eqn:Hg.
  { exists s. split; [reflexivity |]. apply Hskip; auto. discriminate. }
  rewrite Hz. pose proof (pure (net s) tx ty) as Hans.
  destruct (getTile E (net s) tx ty (zoom m)) as [[src | err] net'];
    simpl in Hans; unfold log; cbn [this heap net trace].
  2: { eexists. split; [reflexivity |]. apply Hskip; auto.
       intros src _ Hsrc. congruence. }
  rewrite Hp, Hb. eexists. split; [reflexivity |].
  split; [exact Hp |]. split; [exact Hz |].
  set (scaled := scaledTile E l src).
  set (b' := draw.Copy b (tilePos l tx ty) scaled (tileRect l)).
  exists b'. cbn [heap]. split; [now apply (nth_error_store _ _ b) |].
  assert (Hmin : Min (tileRect l) = Pt 0 0)
    by (rewrite tileRect_nonneg by lia; reflexivity).
  destruct (Copy_pixels b (tilePos l tx ty) scaled (tileRect l) Hmin)
    as (HN & Hin & Hout). fold b' in HN, Hin, Hout.
  change (fst (draw.clip b (Add (tileRect l)
                              (PtSub (tilePos l tx ty) (Min (tileRect l))))
                 scaled (Min (tileRect l))))
    with (painted l b scaled tx ty) in Hin, Hout.
  rewrite (painted_bounds l b (blank R)) in Hin, Hout by exact Hrect.
  (* a pixel of this tile lies in no tile drawn before *)
  assert (Hapart : forall px py a c img img',
            D a c ->
            inside px py (painted l (blank R) img a c) ->
            inside px py (painted l (blank R) img' tx ty) -> False).
  { intros px py a c img img' Hd Ha Ht.
    apply painted_iff in Ha as [Ha _]; [| lia].
    apply painted_iff in Ht as [Ht _]; [| lia].
    destruct (Hsub a c Hd) as [Hax Hcy'].
    apply (destRect_disjoint canvas wpx hpx m a c tx ty px py Hrange);
      try assumption.
    destruct (Z.eq_dec a tx) as [-> | Hn]; [| now left].
    destruct (Z.eq_dec c ty) as [-> | Hn']; [contradiction | now right]. }
  split; [now rewrite HN |].
  intros px py. destruct (Hpix px py) as [H1 H2]. split.
  - intros a c src' [Hd | [-> ->]] Hg' Ha Hq.
    + rewrite Hout; [now apply H1 |].
      intros Ht. exact (Hapart px py a c _ _ Hd Hq Ht).
    + assert (src' = src) by congruence. subst src'.
      rewrite (Hin px py Hq). rewrite H2; [reflexivity |].
      intros a c img Hd _ _ Ha'. exact (Hapart px py a c _ _ Hd Ha' Hq).
  - intros H. rewrite Hout.
    + apply H2. intros a c img Hd. apply H. now left.
    + apply (H tx ty src); auto.
Qed.

Lemma row_showing tx ys :
  forall (D : Z -> Z -> Prop) (s : State E),
    NoDup ys ->
    In tx (columns l wpx) ->
    (forall ty, In ty ys -> In ty (rows l hpx) /\ ~ D tx ty) ->
    (forall a c, D a c -> In a (columns l wpx) /\ In c (rows l hpx)) ->
    showing E l R answer p0 (zoom m) D s ->
    exists s', for_each (fun ty => drawTile E l tx ty) ys s = Ok s' /\
      showing E l R answer p0 (zoom m) (fun a c => D a c \/ (a = tx /\ In c ys)) s'.
Proof.
  induction ys as [| ty ys IH]; intros D s Hnd Hcx Hys Hsub Hs.
  - exists s. split; [reflexivity |]. apply (showing_ext D); [| exact Hs].
    intros a c. simpl. tauto.
  - inversion Hnd as [| ? ? Hnin Hnd']; subst. cbn [for_each].
    destruct (Hys ty (or_introl eq_refl)) as [Hty HnD].
    destruct (drawTile_showing D tx ty s Hcx Hty Hsub HnD Hs) as (s1 & -> & Hs1).
    destruct (IH (fun a c => D a c \/ (a = tx /\ c = ty)) s1 Hnd' Hcx) as (s2 & -> & Hs2).
    + intros ty' Hin. destruct (Hys ty' (or_intror Hin)) as [Hr HnD'].
      split; [exact Hr |]. intros [Hd | [_ ->]]; [contradiction | contradiction].
    + intros a c [Hd | [-> ->]]; [now apply Hsub | auto].
    + exact Hs1.
    + exists s2. split; [reflexivity |].
      apply (showing_ext (fun a c => (D a c \/ a = tx /\ c = ty) \/ a = tx /\ In c ys));
        [| exact Hs2].
      intros a c. simpl. intuition congruence.
Qed.

Lemma grid_showing xs :
  forall (D : Z -> Z -> Prop) (s : State E),
    NoDup xs -> NoDup (rows l hpx) ->
    (forall tx, In tx xs -> In tx (columns l wpx) /\ forall c, ~ D tx c) ->
    (forall a c, D a c -> In a (columns l wpx) /\ In c (rows l hpx)) ->
    showing E l R answer p0 (zoom m) D s ->
    exists s',
      for_each (fun tx => for_each (fun ty => drawTile E l tx ty) (rows l hpx)) xs s
        = Ok s' /\
      showing E l R answer p0 (zoom m)
        (fun a c => D a c \/ (In a xs /\ In c (rows l hpx))) s'.
Proof.
  induction xs as [| tx xs IH]; intros D s Hnd Hndr Hxs Hsub Hs.
  - exists s. split; [reflexivity |]. apply (showing_ext D); [| exact Hs].
    intros a c. simpl. tauto.
  - inversion Hnd as [| ? ? Hnin Hnd']; subst. cbn [for_each].
    destruct (Hxs tx (or_introl eq_refl)) as [Htx HnD].
    destruct (row_showing tx (rows l hpx) D s Hndr Htx) as (s1 & -> & Hs1);
      [intros ty Hty; split; [exact Hty | apply HnD] | exact Hsub | exact Hs |].
    destruct (IH (fun a c => D a c \/ (a = tx /\ In c (rows l hpx))) s1 Hnd' Hndr)
      as (s2 & -> & Hs2).
    + intros tx' Hin. destruct (Hxs tx' (or_intror Hin)) as [Hc HnD'].
      split; [exact Hc |]. intros c [Hd | [-> _]]; [now apply (HnD' c) | contradiction].
    + intros a c [Hd | [-> Hc]]; [now apply Hsub | auto].
    + exact Hs1.
    + exists s2. split; [reflexivity |].
      apply (showing_ext
               (fun a c => (D a c \/ a = tx /\ In c (rows l hpx)) \/
                           In a xs /\ In c (rows l hpx))); [| exact Hs2].
      intros a c. simpl. intuition congruence.
Qed.

End Picture.

Section PictureOfDraw.

Variable E : Env.

(** The buffer a reallocating call returns, as a picture of the tiles of
    the columns and rows it scanned. *)
Lemma draw_picture fuel canvas wpx hpx (st : State E)
    (answer : Z -> Z -> Image + FetchError E) :
  in_range canvas wpx hpx ->
  allocatable wpx hpx ->
  0 <= zoom (this st) ->
  sizeChanged (this st) wpx hpx = true ->
  (forall ts tx ty, fst (getTile E ts tx ty (zoom (this st))) = answer tx ty) ->
  let l := locals canvas wpx hpx (this st) in
  (enough l wpx hpx <= fuel)%nat ->
  exists (st' : State E) (b : NRGBA),
    draw E fuel canvas wpx hpx st = Ok st' /\
    returned st' = Some b /\
    picture E l (Rect 0 0 wpx hpx) answer
      (fun a c => In a (columns l wpx) /\ In c (rows l hpx)) b.
Proof.
  intros Hrange Halloc Hz Hchg Hpure l Hfuel.
  destruct (NewNRGBA_allocatable wpx hpx Halloc) as (Hnew & _ & _).
  unfold draw, reallocate. rewrite Hchg, Hnew. cbv beta iota zeta.
  match goal with |- context [Panic ?s] => set (st1 := s) end.
  change (zoom (this st1)) with (zoom (this st)).
  destruct (zoom (this st) <? 0) eqn:Hneg; [apply Z.ltb_lt in Hneg; lia |].
  assert (Hl : locals canvas wpx hpx (this st1) = locals canvas wpx hpx (this st))
    by (apply locals_frame; reflexivity).
  rewrite Hl, (drawTiles_unroll E fuel canvas wpx hpx (this st) st1 Hrange Hfuel).
  fold l.
  destruct (columns_rows_NoDup canvas wpx hpx (this st) Hrange) as [Hndc Hndr].
  fold l in Hndc, Hndr.
  destruct (grid_showing E canvas wpx hpx (this st) answer (length (heap st))
              Hrange Hpure (columns l wpx) (fun _ _ => False) st1 Hndc Hndr)
    as (st' & Hrun & Hshow).
  - intros tx Hin. split; [exact Hin | intros c []].
  - intros a c [].
  - split; [reflexivity |]. split; [reflexivity |].
    exists (blank (Rect 0 0 wpx hpx)).
    split; [unfold st1; simpl; apply nth_error_last |].
    split; [reflexivity |]. intros px py. split.
    + intros tx ty src [].
    + intros _. reflexivity.
  - destruct Hshow as (Hp & _ & b & Hb & Hpic).
    exists st', b. split; [exact Hrun |].
    split; [unfold returned; now rewrite Hp |].
    apply (picture_ext E canvas wpx hpx (this st) answer
             (fun a c => False \/ In a (columns l wpx) /\ In c (rows l hpx)));
      [| exact Hpic].
    intros a c. tauto.
Qed.

(** X11: the picture a call returns.  Inside the operating range, for a
    call of [draw] that takes the reallocating branch at a zoom level
    [>= 0], with a tile source whose answer for a tile does not change
    during the call: the call returns a buffer with bounds (0, 0)-(w, h) in
    which every pixel covered by a tile that was scanned, is on the grid
    and was served (the pixel lies in the tile's destination rectangle, in
    the buffer and under the image copied) has the colour of that tile's
    image at the offset from the tile's position, composed over transparent
    black, which is the image's own colour wherever that is a valid
    premultiplied colour; and every pixel no such tile covers is
    transparent black.  So a tile whose fetch failed leaves a hole, and no
    tile paints over another. *)
Theorem draw_shows_each_served_tile :
  forall (fuel : nat) (canvas : option float32) (wpx hpx : Z) (st : State E)
         (answer : Z -> Z -> Image + FetchError E),
    in_range canvas wpx hpx ->
    allocatable wpx hpx ->
    0 <= zoom (this st) ->
    sizeChanged (this st) wpx hpx = true ->
    (forall ts tx ty, fst (getTile E ts tx ty (zoom (this st))) = answer tx ty) ->
    let l := locals canvas wpx hpx (this st) in
    (enough l wpx hpx <= fuel)%nat ->
    let covers tx ty src px py :=
      In tx (columns l wpx) /\ In ty (rows l hpx) /\
      offGrid l tx ty = false /\ answer tx ty = inl src /\
      inside px py (destRect l tx ty) /\
      inside px py (Rect 0 0 wpx hpx) /\
      inside px py (Add (Bounds (scaledTile E l src)) (tilePos l tx ty)) in
    exists (st' : State E) (b : NRGBA),
      draw E fuel canvas wpx hpx st = Ok st' /\
      returned st' = Some b /\
      NRect b = Rect 0 0 wpx hpx /\
      (forall px py tx ty src,
          covers tx ty src px py ->
          let s := RGBA64At (scaledTile E l src)
                     (sub px (X (tilePos l tx ty))) (sub py (Y (tilePos l tx ty))) in
          PixAt b px py = NRGBA_of_RGBA64 (draw.over (rgba64 0 0 0 0) s) /\
          (valid16 s -> PixAt b px py = NRGBA_of_RGBA64 s)) /\
      (forall px py,
          (forall tx ty src, ~ covers tx ty src px py) ->
          PixAt b px py = nrgba 0 0 0 0).
Proof.
  intros fuel canvas wpx hpx st answer Hrange Halloc Hz Hchg Hpure l Hfuel covers.
  destruct (draw_picture fuel canvas wpx hpx st answer Hrange Halloc Hz Hchg Hpure Hfuel)
    as (st' & b & Hrun & Hret & Hrect & Hpix).
  fold l in Hpix.
  assert (Hts : 0 <= tilePx l).
  { pose proof (tilePx_pos canvas wpx hpx (this st) Hrange). fold l in H. lia. }
  exists st', b. split; [exact Hrun |]. split; [exact Hret |]. split; [exact Hrect |].
  split.
  - intros px py tx ty src (Hc & Hr & Hg & Ha & Hd & Hb & Hi) s.
    destruct (Hpix px py) as [H1 _].
    assert (Hcol : PixAt b px py = shownColour E l src tx ty px py).
    { apply H1; auto. apply painted_iff; [exact Hts |]. auto. }
    split; [exact Hcol |].
    intros Hv. rewrite Hcol. unfold shownColour. fold s. now rewrite over_blank.
  - intros px py Hnone. destruct (Hpix px py) as [_ H2]. apply H2.
    intros tx ty src [Hc Hr] Hg Ha Hin.
    apply painted_iff in Hin as (Hd & Hb & Hi); [| exact Hts].
    apply (Hnone tx ty src). unfold covers. auto 10.
Qed.

End PictureOfDraw.

Lemma draw_shows_each_served_tile_witness :
  exists (st' : State redServer) (b : NRGBA),
    draw redServer 5 None 512 512 (fresh redServer tt) = Ok st' /\
    returned st' = Some b /\
    PixAt b 128 128 = nrgba 255 0 0 255 /\
    PixAt b 127 128 = nrgba 0 0 0 0.
Proof.
  destruct (draw_shows_each_served_tile redServer 5 None 512 512 (fresh redServer tt)
              (fun _ _ => inl redTile))
    as (st' & b & Hrun & Hret & Hrect & Hin & Hout).
  - unfold in_range, maxInt. simpl. lia.
  - unfold allocatable, maxInt. lia.
  - simpl. lia.
  - reflexivity.
  - intros ts tx ty. reflexivity.
  - vm_compute. lia.
  - exists st', b. split; [exact Hrun |]. split; [exact Hret |]. split.
    + destruct (Hin 128 128 0 0 redTile) as [_ Hv].
      { repeat split; try (vm_compute; reflexivity);
          vm_compute; repeat ((left; reflexivity) || right). }
      rewrite Hv; [vm_compute; reflexivity |].
      change (valid16 (rgba64 65535 0 0 65535)). simpl. lia.
    + apply Hout. intros tx ty src (Hc & Hr & Hg & _ & Hd & _).
      vm_compute in Hc, Hr.
      repeat (destruct Hc as [<- | Hc]; [| try contradiction]);
        repeat (destruct Hr as [<- | Hr]; [| try contradiction]);
        vm_compute in Hg, Hd; discriminate.
Defined.
